(** * Firestore pagination materializer: embedding and verification

    The four operations of the package ([savePageToCollection], [readPages],
    [materializePaginationResults], [readMaterializedPages]) are embedded
    over an explicit model of the document store they call.  The two
    generators are embedded as state machines: their state is what the
    generator function keeps between two resumptions, and one step runs
    the body from one suspension point to the next.  [for await] loops are
    driven by fuel.

    The store is a collaborator of the package, not part of it.  Its model
    follows the documented behaviour of the client library functions the
    code imports ([query], [where], [orderBy], [limit], [startAfter],
    [getDocs], [addDoc]):

    - field values are scalars, ordered by type and then by value;
    - a query keeps the documents that carry every filtered value and
      every ordered field, sorts them by its [orderBy] fields and then by
      document identifier, drops those not strictly after the bound of
      [startAfter], and returns the first [limit] of them;
    - the bound of [startAfter] is a position in the order of the query:
      its value is read against the first [orderBy] clause the caller
      gave, and compared with the field of that clause; on a query
      without an [orderBy] clause there is nothing to read it against, and
      [startAfter] is refused when the constraint is applied;
    - [limit] wants a positive number, a field path no empty segment and
      no reserved character; a violation is thrown when the constraint is
      built;
    - [addDoc] refuses a document with an undefined field before it calls
      the store, as the library does under its default settings: a page
      saved without metadata is such a document;
    - any call to the store may fail; the failures and the identifiers
      given to added documents come from two oracles.

    The source and the destination are two collections of one world.
    Indexes are taken to exist, identifiers to be well formed. *)

From Stdlib Require Import ZArith.
From Stdlib Require String.
From Stdlib Require Import Ascii.
From stdpp Require Import base option list sorting gmap strings.

(** ** Field values and their order *)

(** The scalar fragment of the store's value model.  Values of different
    types are ordered by type: null, then booleans, then numbers, then
    strings. *)
Inductive Value :=
  | VNull
  | VBool (b : bool)
  | VNum (n : Z)
  | VStr (s : string).

Global Instance Value_eq_dec : EqDecision Value.
Proof. solve_decision. Defined.

Definition valueCompare (x y : Value) : comparison :=
  match x, y with
  | VNull, VNull => Eq
  | VNull, _ => Lt
  | _, VNull => Gt
  | VBool a, VBool b => Bool.compare a b
  | VBool _, _ => Lt
  | _, VBool _ => Gt
  | VNum a, VNum b => Z.compare a b
  | VNum _, _ => Lt
  | _, VNum _ => Gt
  | VStr a, VStr b => String.compare a b
  end.

Inductive Direction := Asc | Desc.

Global Instance Direction_eq_dec : EqDecision Direction.
Proof. solve_decision. Defined.

Definition directed (d : Direction) (c : comparison) : comparison :=
  match d with Asc => c | Desc => CompOpp c end.

(** A comparison function behaves like a total preorder when it satisfies
    these three laws. *)
Record OrderLike {A} (c : A → A → comparison) : Prop := {
  cmp_antisym x y : c x y = CompOpp (c y x);
  cmp_trans_lt x y z : c x y = Lt → c y z = Lt → c x z = Lt;
  cmp_eq_l x y z : c x y = Eq → c x z = c y z;
}.

(** ** Documents, constraints and queries *)

Inductive Error :=
  | InvalidArgument
  | StoreFailure (code : nat).

Global Instance Error_eq_dec : EqDecision Error.
Proof. solve_decision. Defined.

Inductive Result (A : Type) :=
  | Ok (a : A)
  | Err (e : Error).
Arguments Ok {A} a.
Arguments Err {A} e.

(** What a query needs from a document: its identifier and the scalar found
    at a field path, if any. *)
Class Document (D : Type) := {
  docId : D → string;
  docField : D → list string → option Value;
}.

(** The reserved name of the document identifier as a field. *)
Definition keyField : list string := ["__name__"].

Definition fieldOf `{Document D} (d : D) (path : list string) : option Value :=
  if decide (path = keyField) then Some (VStr (docId d)) else docField d path.

Inductive QueryConstraint :=
  | FieldFilter (path : list string) (v : Value)
  | OrderBy (path : list string) (dir : Direction)
  | Limit (n : positive)
  | StartAfter (v : Value).

Record Query := {
  filters : list (list string * Value);
  explicitOrders : list (list string * Direction);
  limitTo : option positive;
  bound : option Value;
}.

Global Instance QueryConstraint_eq_dec : EqDecision QueryConstraint.
Proof. solve_decision. Defined.

Global Instance Query_eq_dec : EqDecision Query.
Proof. solve_decision. Defined.

(** The query over a whole collection: [query(collectionRef)]. *)
Definition collectionQuery : Query :=
  {| filters := []; explicitOrders := []; limitTo := None; bound := None |}.

(** Splitting a dot-separated field path into its segments. *)
Fixpoint splitDots (s : string) : list string :=
  match s with
  | EmptyString => [EmptyString]
  | String c s' =>
      if Ascii.eqb c "."%char then EmptyString :: splitDots s'
      else
        match splitDots s' with
        | seg :: rest => String c seg :: rest
        | [] => [String c EmptyString]
        end
  end.

Definition reservedChar (c : Ascii.ascii) : bool :=
  Ascii.eqb c "~"%char || Ascii.eqb c "*"%char || Ascii.eqb c "/"%char
  || Ascii.eqb c "["%char || Ascii.eqb c "]"%char.

Fixpoint hasReserved (s : string) : bool :=
  match s with
  | EmptyString => false
  | String c s' => reservedChar c || hasReserved s'
  end.

(** Parsing of a field path given as a string: reserved characters and
    empty segments are rejected. *)
Definition parseFieldPath (path : string) : Result (list string) :=
  if hasReserved path then Err InvalidArgument
  else
    let segs := splitDots path in
    if bool_decide (EmptyString ∈ segs) then Err InvalidArgument else Ok segs.

(** [where(path, '==', value)] *)
Definition where_ (path : string) (v : Value) : Result QueryConstraint :=
  match parseFieldPath path with
  | Ok p => Ok (FieldFilter p v)
  | Err e => Err e
  end.

(** [orderBy(path)] and [orderBy(path, 'desc')] *)
Definition orderBy (path : string) (dir : Direction) : Result QueryConstraint :=
  match parseFieldPath path with
  | Ok p => Ok (OrderBy p dir)
  | Err e => Err e
  end.

(** [limit(n)]: the limit must be positive. *)
Definition limit (n : Z) : Result QueryConstraint :=
  match n with
  | Zpos p => Ok (Limit p)
  | _ => Err InvalidArgument
  end.

(** [startAfter(value)] *)
Definition startAfter (v : Value) : QueryConstraint := StartAfter v.

(** The order a query is executed in: its explicit orders, completed by the
    document identifier in the direction of the last explicit order. *)
Definition lastDirection (os : list (list string * Direction)) : Direction :=
  match last os with
  | Some (_, d) => d
  | None => Asc
  end.

Definition normalizedOrders (os : list (list string * Direction))
  : list (list string * Direction) :=
  if bool_decide (keyField ∈ os.*1) then os
  else os ++ [(keyField, lastDirection os)].

(** The bound of [startAfter] is checked against the [orderBy] clauses
    the query was given: there must be one to read the value against, and
    a position in document-identifier order must be a string. *)
Definition validBound (os : list (list string * Direction)) (v : Value) : bool :=
  match os with
  | (p, _) :: _ =>
      if decide (p = keyField) then
        match v with VStr _ => true | _ => false end
      else true
  | [] => false
  end.

Definition applyConstraint (q : Query) (c : QueryConstraint) : Result Query :=
  match c with
  | FieldFilter p v =>
      Ok {| filters := filters q ++ [(p, v)];
            explicitOrders := explicitOrders q;
            limitTo := limitTo q; bound := bound q |}
  | OrderBy p d =>
      match bound q with
      | Some _ => Err InvalidArgument
      | None =>
          Ok {| filters := filters q;
                explicitOrders := explicitOrders q ++ [(p, d)];
                limitTo := limitTo q; bound := bound q |}
      end
  | Limit n =>
      Ok {| filters := filters q; explicitOrders := explicitOrders q;
            limitTo := Some n; bound := bound q |}
  | StartAfter v =>
      if validBound (explicitOrders q) v then
        Ok {| filters := filters q; explicitOrders := explicitOrders q;
              limitTo := limitTo q; bound := Some v |}
      else Err InvalidArgument
  end.

(** [query(q, ...constraints)]: the constraints are applied from left to
    right. *)
Fixpoint query (q : Query) (cs : list QueryConstraint) : Result Query :=
  match cs with
  | [] => Ok q
  | c :: cs' =>
      match applyConstraint q c with
      | Ok q' => query q' cs'
      | Err e => Err e
      end
  end.

(** ** Query execution *)

Section execution.
Context `{Document D}.

Definition keyOf (d : D) (path : list string) : Value :=
  default VNull (fieldOf d path).

Fixpoint docCompare (os : list (list string * Direction)) (d1 d2 : D)
  : comparison :=
  match os with
  | [] => Eq
  | (p, dir) :: os' =>
      match directed dir (valueCompare (keyOf d1 p) (keyOf d2 p)) with
      | Eq => docCompare os' d1 d2
      | c => c
      end
  end.

Definition docLe (os : list (list string * Direction)) : relation D :=
  λ d1 d2, docCompare os d1 d2 ≠ Gt.

Global Instance docLe_dec os d1 d2 : Decision (docLe os d1 d2).
Proof. unfold docLe. apply _. Defined.

(** A document satisfies the equality filters when each filtered field is
    present with exactly the filtered value. *)
Definition matchesFilters (q : Query) (d : D) : bool :=
  forallb (λ f, bool_decide (fieldOf d f.1 = Some f.2)) (filters q).

(** A document without one of the ordered fields is not in the index the
    query runs over. *)
Definition hasOrderedFields (q : Query) (d : D) : bool :=
  forallb (λ o, bool_decide (is_Some (fieldOf d o.1))) (explicitOrders q).

(** A document lies after the bound when the field of the first order
    is strictly after it in the direction of that order. *)
Definition afterBound (q : Query) (d : D) : bool :=
  match bound q, normalizedOrders (explicitOrders q) with
  | Some b, (p, dir) :: _ =>
      bool_decide (directed dir (valueCompare (keyOf d p) b) = Gt)
  | _, _ => true
  end.

Definition truncate (q : Query) (l : list D) : list D :=
  match limitTo q with
  | Some n => take (Pos.to_nat n) l
  | None => l
  end.

(** The full ordered result set of a query without its bound and limit. *)
Definition ordered (q : Query) (docs : list D) : list D :=
  merge_sort (docLe (normalizedOrders (explicitOrders q)))
    (filter (λ d, matchesFilters q d && hasOrderedFields q d) docs).

Definition execute (q : Query) (docs : list D) : list D :=
  truncate q (filter (λ d, afterBound q d = true) (ordered q docs)).
End execution.

(** ** Data model of the package *)

Abbreviation DocumentData := (gmap string Value).
Abbreviation Metadata := (gmap string Value).

(** A document snapshot as the store hands it out: [doc.id] and
    [doc.data()]. *)
Record Snapshot (T : Type) := {
  doc_id : string;
  doc_data : T;
}.
Arguments doc_id {T} _.
Arguments doc_data {T} _.

(** [interface PaginationData]: a page, and the fields of the entry that
    persists it.  The cursor is [string | null], the metadata is optional. *)
Record PaginationData := {
  cursor : option string;
  data : list DocumentData;
  metadata : option Metadata;
}.

(** What [readMaterializedPages] yields. *)
Record MaterializedPage := {
  page_data : list DocumentData;
  page_metadata : option Metadata;
}.

Global Instance Snapshot_eq_dec `{EqDecision T} : EqDecision (Snapshot T).
Proof. solve_decision. Defined.

Global Instance PaginationData_eq_dec : EqDecision PaginationData.
Proof. solve_decision. Defined.

Global Instance MaterializedPage_eq_dec : EqDecision MaterializedPage.
Proof. solve_decision. Defined.

Definition cursorValue (c : option string) : Value :=
  match c with
  | Some s => VStr s
  | None => VNull
  end.

(** Documents of a source collection: flat records of scalars. *)
Global Instance source_document : Document (Snapshot DocumentData) := {|
  docId := doc_id;
  docField d path :=
    match path with
    | [f] => doc_data d !! f
    | _ => None
    end;
|}.

(** Entries of a destination collection: the scalar [cursor] and the
    scalars nested one level below [metadata] can be queried. *)
Global Instance entry_document : Document (Snapshot PaginationData) := {|
  docId := doc_id;
  docField d path :=
    match path with
    | [f] =>
        if decide (f = "cursor") then Some (cursorValue (cursor (doc_data d)))
        else None
    | [f; k] =>
        if decide (f = "metadata") then metadata (doc_data d) ≫= (.!! k)
        else None
    | _ => None
    end;
|}.

(** ** The store and its calls *)

Inductive Call :=
  | ReadSource (q : Query) (r : Result (list (Snapshot DocumentData)))
  | ReadDestination (q : Query) (r : Result (list (Snapshot PaginationData)))
  | WriteDestination (e : PaginationData) (r : Result string).

(** The world the package runs in: the source collection (identifier to
    data), the destination collection (entries in the order they were
    added) and the journal of every call made to the store so far. *)
Record World := {
  source : gmap string DocumentData;
  destination : list (Snapshot PaginationData);
  journal : list Call;
}.

Definition sourceDocs (w : World) : list (Snapshot DocumentData) :=
  (λ kv, {| doc_id := kv.1; doc_data := kv.2 |}) <$> map_to_list (source w).

Definition record (c : Call) (w : World) : World :=
  {| source := source w; destination := destination w;
     journal := journal w ++ [c] |}.

Global Instance Result_bind : MBind Result :=
  λ A B k r, match r with Ok a => k a | Err e => Err e end.

Inductive Step (S Y : Type) :=
  | Yield (y : Y) (s : S)
  | Return
  | Throw (e : Error).
Arguments Yield {S Y} y s.
Arguments Return {S Y}.
Arguments Throw {S Y} e.

Inductive Outcome :=
  | Completed
  | Aborted (e : Error)
  | OutOfFuel.

Global Instance Outcome_eq_dec : EqDecision Outcome.
Proof. solve_decision. Defined.

Record ReadPagesState := {
  lastCursor : option (Snapshot DocumentData);
  pageNumber : Z;
}.

Record ReplayState := {
  lastSeen : option string;
  pending : list (Snapshot PaginationData);
}.

Section package.
(** The store may fail any call: [fault n] is the failure of the [n]-th
    call made to it, if that call fails.  [autoId n] is the identifier the
    store assigns to a document added by its [n]-th call. *)
Variable fault : nat → option Error.
Variable autoId : nat → string.

(** [getDocs] on a query over the source collection. *)
Definition getDocsSource (q : Query) (w : World)
  : Result (list (Snapshot DocumentData)) * World :=
  let r := match fault (length (journal w)) with
           | Some e => Err e
           | None => Ok (execute q (sourceDocs w))
           end in
  (r, record (ReadSource q r) w).

(** [getDocs] on a query over the destination collection. *)
Definition getDocsDestination (q : Query) (w : World)
  : Result (list (Snapshot PaginationData)) * World :=
  let r := match fault (length (journal w)) with
           | Some e => Err e
           | None => Ok (execute q (destination w))
           end in
  (r, record (ReadDestination q r) w).

(** [addDoc] on the destination collection.  An entry whose [metadata]
    is undefined is refused while the document is encoded, before any
    call to the store. *)
Definition addDoc (e : PaginationData) (w : World) : Result string * World :=
  match metadata e with
  | None => (Err InvalidArgument, w)
  | Some _ =>
      match fault (length (journal w)) with
      | Some err => (Err err, record (WriteDestination e (Err err)) w)
      | None =>
          let i := autoId (length (journal w)) in
          (Ok i,
           {| source := source w;
              destination :=
                destination w ++ [{| doc_id := i; doc_data := e |}];
              journal := journal w ++ [WriteDestination e (Ok i)] |})
      end
  end.

(** *** savePageToCollection *)

Definition savePageToCollection (data : list DocumentData)
    (cursor : option string) (metadata : option Metadata) (w : World)
  : Result unit * World :=
  match addDoc {| cursor := cursor; data := data; metadata := metadata |} w with
  | (Ok _, w') => (Ok (), w')
  | (Err e, w') => (Err e, w')
  end.

(** *** readPages *)

Definition readPages : ReadPagesState :=
  {| lastCursor := None; pageNumber := 1 |}.

Definition readPages_query (queryParams : list QueryConstraint)
    (batchSize : Z) (lastCursor : option (Snapshot DocumentData))
  : Result Query :=
  l ← limit batchSize;
  currentQuery ← query collectionQuery (queryParams ++ [l]);
  match lastCursor with
  | Some c => query currentQuery [startAfter (VStr (doc_id c))]
  | None => Ok currentQuery
  end.

(** The [forEach] over the snapshot: every document appends its data and
    overwrites the cursor with its identifier. *)
Definition collect (querySnapshot : list (Snapshot DocumentData))
  : list DocumentData * option string :=
  foldl (λ acc doc, (acc.1 ++ [doc_data doc], Some (doc_id doc)))
    ([], None) querySnapshot.

Definition pageMetadata (metadata : option Metadata) (pageNumber : Z)
  : Metadata :=
  match metadata with
  | Some m => <["pageNumber" := VNum pageNumber]> m
  | None => {["pageNumber" := VNum pageNumber]}
  end.

(** One resumption of the generator: from the head of the loop to the
    next [yield], to the [break], or to a failure. *)
Definition readPages_next (queryParams : list QueryConstraint)
    (batchSize : Z) (metadata : option Metadata)
    (st : ReadPagesState) (w : World)
  : Step ReadPagesState PaginationData * World :=
  match readPages_query queryParams batchSize (lastCursor st) with
  | Err e => (Throw e, w)
  | Ok currentQuery =>
      match getDocsSource currentQuery w with
      | (Err e, w') => (Throw e, w')
      | (Ok [], w') => (Return, w')
      | (Ok querySnapshot, w') =>
          let '(data, cursor) := collect querySnapshot in
          (Yield
             {| cursor := cursor; data := data;
                metadata := Some (pageMetadata metadata (pageNumber st)) |}
             {| lastCursor := last querySnapshot;
                pageNumber := pageNumber st + 1 |},
           w')
      end
  end.

(** A consumer that iterates a generator to its end ([for await]),
    keeping what it yields. *)
Fixpoint drain {S Y} (next : S → World → Step S Y * World)
    (fuel : nat) (st : S) (w : World) : list Y * Outcome * World :=
  match fuel with
  | O => ([], OutOfFuel, w)
  | Datatypes.S fuel' =>
      match next st w with
      | (Yield y st', w') =>
          let '(ys, o, w'') := drain next fuel' st' w' in
          (y :: ys, o, w'')
      | (Return, w') => ([], Completed, w')
      | (Throw e, w') => ([], Aborted e, w')
      end
  end.

(** *** materializePaginationResults *)

(** The body of the [for await]: the page is handed to
    [savePageToCollection] field by field. *)
Definition savePage (page : PaginationData) (w : World)
  : Result unit * World :=
  savePageToCollection (data page) (cursor page) (metadata page) w.

Fixpoint materializeLoop (queryParams : list QueryConstraint)
    (batchSize : Z) (metadata : option Metadata)
    (fuel : nat) (st : ReadPagesState) (w : World) : Outcome * World :=
  match fuel with
  | O => (OutOfFuel, w)
  | Datatypes.S fuel' =>
      match readPages_next queryParams batchSize metadata st w with
      | (Yield page st', w') =>
          match savePage page w' with
          | (Ok _, w'') =>
              materializeLoop queryParams batchSize metadata fuel' st' w''
          | (Err e, w'') => (Aborted e, w'')
          end
      | (Return, w') => (Completed, w')
      | (Throw e, w') => (Aborted e, w')
      end
  end.

Definition materializePaginationResults (queryParams : list QueryConstraint)
    (batchSize : Z) (metadata : option Metadata) (fuel : nat) (w : World)
  : Outcome * World :=
  materializeLoop queryParams batchSize metadata fuel readPages w.

(** *** readMaterializedPages *)

Definition readMaterializedPages : ReplayState :=
  {| lastSeen := None; pending := [] |}.

Fixpoint addFilters (q : Query) (entries : list (string * Value))
  : Result Query :=
  match entries with
  | [] => Ok q
  | (key, value) :: rest =>
      f ← where_ ("metadata." +:+ key) value;
      q' ← query q [f];
      addFilters q' rest
  end.

Definition readMaterializedPages_query (metadataFilter : option Metadata)
    (lastCursor : option string) : Result Query :=
  o ← orderBy "cursor" Asc;
  currentQuery ← query collectionQuery [o; startAfter (cursorValue lastCursor)];
  match metadataFilter with
  | Some f => addFilters currentQuery (map_to_list f)
  | None => Ok currentQuery
  end.

Definition yieldEntry (doc : Snapshot PaginationData)
    (rest : list (Snapshot PaginationData))
  : Step ReplayState MaterializedPage :=
  Yield {| page_data := data (doc_data doc);
           page_metadata := metadata (doc_data doc) |}
        {| lastSeen := cursor (doc_data doc); pending := rest |}.

(** One resumption of the generator: inside the [for] over the documents
    of the last snapshot while some are pending, from the head of the
    [while] otherwise. *)
Definition readMaterializedPages_next (metadataFilter : option Metadata)
    (st : ReplayState) (w : World)
  : Step ReplayState MaterializedPage * World :=
  match pending st with
  | doc :: rest => (yieldEntry doc rest, w)
  | [] =>
      match readMaterializedPages_query metadataFilter (lastSeen st) with
      | Err e => (Throw e, w)
      | Ok currentQuery =>
          match getDocsDestination currentQuery w with
          | (Err e, w') => (Throw e, w')
          | (Ok [], w') => (Return, w')
          | (Ok (doc :: rest), w') => (yieldEntry doc rest, w')
          end
      end
  end.
End package.

(** ** Notions used by the statements *)

(** The full ordered result set of the query [query(collectionRef,
    ...queryParams)], with no limit added. *)
Definition resultSet (queryParams : list QueryConstraint) (w : World)
  : list (Snapshot DocumentData) :=
  match query collectionQuery queryParams with
  | Ok q => execute q (sourceDocs w)
  | Err _ => []
  end.

Definition isFilter (c : QueryConstraint) : bool :=
  match c with
  | FieldFilter _ _ => true
  | _ => false
  end.

(** Cutting a list into consecutive batches of [n] elements, the last one
    possibly shorter. *)
Fixpoint chunksAux {A} (fuel n : nat) (l : list A) : list (list A) :=
  match fuel, l with
  | O, _ => []
  | _, [] => []
  | Datatypes.S fuel', _ => take n l :: chunksAux fuel' n (drop n l)
  end.

Definition chunks {A} (n : nat) (l : list A) : list (list A) :=
  chunksAux (length l) n l.

(** The page [readPages] builds from a snapshot, as page number [k]. *)
Definition pageOf (base : option Metadata) (k : Z)
    (docs : list (Snapshot DocumentData)) : PaginationData :=
  {| cursor := doc_id <$> last docs;
     data := doc_data <$> docs;
     metadata := Some (pageMetadata base k) |}.

(** The pages built from successive batches, numbered from [k]. *)
Fixpoint pagesOf (base : option Metadata) (k : Z)
    (batches : list (list (Snapshot DocumentData))) : list PaginationData :=
  match batches with
  | [] => []
  | b :: bs => pageOf base k b :: pagesOf base (k + 1) bs
  end.

(** What [readMaterializedPages] yields for a stored entry. *)
Definition toPage (doc : Snapshot PaginationData) : MaterializedPage :=
  {| page_data := data (doc_data doc);
     page_metadata := metadata (doc_data doc) |}.

(** The item [readMaterializedPages] yields for a page once stored. *)
Definition replayed (p : PaginationData) : MaterializedPage :=
  {| page_data := data p; page_metadata := metadata p |}.

Definition succeeded (c : Call) : bool :=
  match c with
  | ReadSource _ (Ok _) | ReadDestination _ (Ok _)
  | WriteDestination _ (Ok _) => true
  | _ => false
  end.

Definition failure (c : Call) : option Error :=
  match c with
  | ReadSource _ (Err e) | ReadDestination _ (Err e)
  | WriteDestination _ (Err e) => Some e
  | _ => None
  end.

(** The entries the successful writes among some calls have added. *)
Definition written (calls : list Call) : list (Snapshot PaginationData) :=
  omap (λ c, match c with
             | WriteDestination e (Ok i) => Some {| doc_id := i; doc_data := e |}
             | _ => None
             end) calls.

Definition isWrite (c : Call) : bool :=
  match c with
  | WriteDestination _ _ => true
  | _ => false
  end.

Definition isReplayRead (c : Call) : bool :=
  match c with
  | ReadDestination _ _ => true
  | _ => false
  end.

Definition unlimited (c : Call) : bool :=
  match c with
  | ReadSource q _ | ReadDestination q _ => bool_decide (limitTo q = None)
  | WriteDestination _ _ => true
  end.

(** The calls of a sequential materialization of the source documents
    [docs], from the state [st] of the generator on: a read of the source
    with the query [readPages] builds in that state, which returns what
    that query finds; then the write of exactly the page built from what
    was read, under the page number of the state; then the calls from the
    next state on, whose cursor is the last document read.  The calls end
    with a read that returns nothing, with the first call that fails, or
    where the run stops (by itself, or because no query can be built). *)
Inductive Sequential (queryParams : list QueryConstraint) (batchSize : Z)
    (base : option Metadata) (docs : list (Snapshot DocumentData))
  : ReadPagesState → list Call → Prop :=
  | seq_pending st : Sequential queryParams batchSize base docs st []
  | seq_end st q :
      readPages_query queryParams batchSize (lastCursor st) = Ok q →
      execute q docs = [] →
      Sequential queryParams batchSize base docs st [ReadSource q (Ok [])]
  | seq_read_failed st q e :
      readPages_query queryParams batchSize (lastCursor st) = Ok q →
      Sequential queryParams batchSize base docs st [ReadSource q (Err e)]
  | seq_write_failed st q e :
      readPages_query queryParams batchSize (lastCursor st) = Ok q →
      execute q docs ≠ [] →
      Sequential queryParams batchSize base docs st
        [ReadSource q (Ok (execute q docs));
         WriteDestination (pageOf base (pageNumber st) (execute q docs))
           (Err e)]
  | seq_step st q i rest :
      readPages_query queryParams batchSize (lastCursor st) = Ok q →
      execute q docs ≠ [] →
      Sequential queryParams batchSize base docs
        {| lastCursor := last (execute q docs);
           pageNumber := pageNumber st + 1 |} rest →
      Sequential queryParams batchSize base docs st
        (ReadSource q (Ok (execute q docs))
         :: WriteDestination (pageOf base (pageNumber st) (execute q docs))
              (Ok i)
         :: rest).

(** The document the generator holds as its cursor after some calls, when
    it held [c] before: the last document of the last page read. *)
Definition cursorAfter (c : option (Snapshot DocumentData))
    (calls : list Call) : option (Snapshot DocumentData) :=
  foldl (λ c call, match call with
                   | ReadSource _ (Ok (d :: docs)) => last (d :: docs)
                   | _ => c
                   end) c calls.

(** A key of a metadata filter from which the field path
    [metadata.<key>] can be built. *)
Definition validKey (key : string) : bool :=
  negb (hasReserved key)
  && negb (bool_decide (EmptyString ∈ "metadata" :: splitDots key)).

Definition validFilter (metadataFilter : option Metadata) : bool :=
  match metadataFilter with
  | Some f => forallb validKey (map_to_list f).*1
  | None => true
  end.

(** The equality constraints a metadata filter stands for. *)
Definition filterPairs (entries : list (string * Value))
  : list (list string * Value) :=
  (λ kv, ("metadata" :: splitDots kv.1, kv.2)) <$> entries.

(** The query [readMaterializedPages] runs after last seeing cursor [c]. *)
Definition replayQuery (metadataFilter : option Metadata) (c : option string)
  : Query :=
  {| filters := match metadataFilter with
                | Some f => filterPairs (map_to_list f)
                | None => []
                end;
     explicitOrders := [(["cursor"], Asc)];
     limitTo := None;
     bound := Some (cursorValue c) |}.

(** An entry carries every key/value pair of the filter. *)
Definition satisfies (metadataFilter : option Metadata)
    (m : option Metadata) : Prop :=
  ∀ f key v, metadataFilter = Some f → f !! key = Some v →
    m ≫= (.!! key) = Some v.

(** The calls one complete traversal by [readMaterializedPages] makes when
    its first snapshot is [snapshot]. *)
Definition replayCalls (metadataFilter : option Metadata)
    (snapshot : list (Snapshot PaginationData)) : list Call :=
  match last snapshot with
  | None => [ReadDestination (replayQuery metadataFilter None) (Ok [])]
  | Some d =>
      [ReadDestination (replayQuery metadataFilter None) (Ok snapshot);
       ReadDestination
         (replayQuery metadataFilter (cursor (doc_data d))) (Ok [])]
  end.

(** The cursor last seen after the pending entries [l] have been yielded,
    when it was [c] before. *)
Definition seenAfter (c : option string) (l : list (Snapshot PaginationData))
  : option string :=
  match last l with
  | Some d => cursor (doc_data d)
  | None => c
  end.

(** The equality constraints among some query constraints. *)
Definition pairsOf (cs : list QueryConstraint) : list (list string * Value) :=
  omap (λ c, match c with
             | FieldFilter p v => Some (p, v)
             | _ => None
             end) cs.

(** The constraint [orderBy(documentId())], ascending. *)
Definition isIdOrder (c : QueryConstraint) : bool :=
  match c with
  | OrderBy p Asc => bool_decide (p = keyField)
  | _ => false
  end.

(** Constraints that have the store answer in ascending order of the
    document identifiers, and give [startAfter] a clause to read an
    identifier against: equality filters and one ascending [orderBy] on
    the document identifier. *)
Fixpoint byIdentifier (cs : list QueryConstraint) : bool :=
  match cs with
  | [] => false
  | c :: cs' =>
      if isIdOrder c then forallb isFilter cs'
      else isFilter c && byIdentifier cs'
  end.

(** The query such constraints build, and the query of one page of it. *)
Definition baseQuery (cs : list QueryConstraint) : Query :=
  {| filters := pairsOf cs; explicitOrders := [(keyField, Asc)];
     limitTo := None; bound := None |}.

Definition pageQuery (cs : list QueryConstraint) (n : positive)
    (after : option Value) : Query :=
  {| filters := pairsOf cs; explicitOrders := [(keyField, Asc)];
     limitTo := Some n; bound := after |}.

(** Strictly ascending document identifiers. *)
Definition idBefore {T} (a b : Snapshot T) : Prop :=
  String.compare (doc_id a) (doc_id b) = Lt.

(** Strictly ascending cursors, in the order of the store's values. *)
Definition cursorBefore (a b : option string) : Prop :=
  valueCompare (cursorValue a) (cursorValue b) = Lt.

(** ** Sample oracles, worlds and queries *)

(** A store that fails no call, a store that fails its [n]-th call, and
    identifiers [A], [B], ... for the documents added. *)

Definition reliable : nat → option Error := λ _, None.

Definition failingAt (n : nat) (e : Error) : nat → option Error :=
  λ i, if decide (i = n) then Some e else None.

Definition letterId (n : nat) : string :=
  String (ascii_of_nat (65 + n)) EmptyString.

Definition emptyWorld : World :=
  {| source := ∅; destination := []; journal := [] |}.

Definition worldOf (docs : list (string * DocumentData)) : World :=
  {| source := list_to_map docs; destination := []; journal := [] |}.

(** Sample data: a record, and a destination holding two entries tagged
    with different metadata. *)
Definition recordOf (n : Z) : DocumentData := {["n" := VNum n]}.

Definition twoEntries : World :=
  {| source := ∅;
     destination :=
       [{| doc_id := "A";
           doc_data := {| cursor := Some "p1"; data := [recordOf 1];
                          metadata := Some {["id" := VStr "a"]} |} |};
        {| doc_id := "B";
           doc_data := {| cursor := Some "p2"; data := [recordOf 2];
                          metadata := Some {["id" := VStr "b"]} |} |}];
     journal := [] |}.

(** Sample sources.  [threeDocs] holds three records whose numeric field
    [t] ascends with their identifiers; [scrambled] holds three records
    whose string field [t] orders them differently from their identifiers;
    [archive] holds 25 records whose timestamps ascend with their
    identifiers. *)
Definition threeDocs : World :=
  worldOf [("a", {["t" := VNum 1]}); ("b", {["t" := VNum 2]});
           ("c", {["t" := VNum 3]})].

Definition scrambled : World :=
  worldOf [("m", {["t" := VStr "a"]}); ("c", {["t" := VStr "n"]});
           ("z", {["t" := VStr "d"]})].

Definition twoDigits (n : nat) : string :=
  String (ascii_of_nat (48 + n / 10))
    (String (ascii_of_nat (48 + n mod 10)) EmptyString).

Definition archive : World :=
  worldOf ((λ k, ("r" +:+ twoDigits k, {["timestamp" := VNum (Z.of_nat k)]}))
             <$> seq 1 25).

(** The constraint list [[orderBy('t', dir)]]. *)
Definition sortedByT (dir : Direction) : list QueryConstraint :=
  match orderBy "t" dir with
  | Ok c => [c]
  | Err _ => []
  end.

(** The constraint list [[orderBy(documentId())]]. *)
Definition sortedById : list QueryConstraint :=
  match orderBy "__name__" Asc with
  | Ok c => [c]
  | Err _ => []
  end.


(** A source read into a destination that already holds entries. *)
Definition reused : World :=
  {| source := source threeDocs; destination := destination twoEntries;
     journal := [] |}.

(** A query that matches none of the sample records. *)
Definition publishedOnly : list QueryConstraint :=
  match where_ "status" (VStr "published") with
  | Ok c => [c]
  | Err _ => []
  end.

(** The second record of [threeDocs], as a snapshot. *)
Definition secondDoc : Snapshot DocumentData :=
  {| doc_id := "b"; doc_data := {["t" := VNum 2]} |}.

(** ** Notions used by the further properties *)

Definition isSourceRead (c : Call) : bool :=
  match c with
  | ReadSource _ _ => true
  | _ => false
  end.

(** A filter key that is one well-formed segment of a field path. *)
Definition plainKey (key : string) : bool :=
  negb (hasReserved key)
  && bool_decide (splitDots key = [key])
  && negb (bool_decide (key = EmptyString)).

(** The metadata [m] carries every key/value pair of [f]. *)
Definition carries (f : Metadata) (m : option Metadata) : bool :=
  bool_decide (map_Forall (λ key v, m ≫= (.!! key) = Some v) f).

(** An entry [readMaterializedPages] can reach under a filter: one with a
    cursor to start after, whose metadata carries the filter. *)
Definition readable (metadataFilter : option Metadata)
    (d : Snapshot PaginationData) : Prop :=
  cursor (doc_data d) ≠ None
  ∧ match metadataFilter with
    | Some f => carries f (metadata (doc_data d)) = true
    | None => True
    end.

(** The order of the entries in a snapshot of the destination: by
    cursor, and by identifier among equal cursors. *)
Definition replayOrder (a b : Snapshot PaginationData) : Prop :=
  match valueCompare (cursorValue (cursor (doc_data a)))
          (cursorValue (cursor (doc_data b))) with
  | Lt => True
  | Eq => String.compare (doc_id a) (doc_id b) ≠ Gt
  | Gt => False
  end.

Global Instance readable_dec metadataFilter d :
  Decision (readable metadataFilter d).
Proof. unfold readable. destruct metadataFilter; apply _. Defined.

(** A filter all of whose keys are plain. *)
Definition plainFilter (metadataFilter : option Metadata) : bool :=
  match metadataFilter with
  | Some f => forallb plainKey (map_to_list f).*1
  | None => true
  end.

(** Two queries that differ at most in their limit. *)
Definition sameButLimit (q q' : Query) : Prop :=
  filters q = filters q' ∧ explicitOrders q = explicitOrders q'
  ∧ bound q = bound q'.

Definition isLimit (c : QueryConstraint) : bool :=
  match c with
  | Limit _ => true
  | _ => false
  end.

(** ** Properties of the store's order *)

Lemma N_compare_orderlike : OrderLike N.compare.
Proof.
  split.
  - intros x y. apply N.compare_antisym.
  - intros x y z. rewrite !N.compare_lt_iff. lia.
  - intros x y z E. apply N.compare_eq in E. by subst.
Qed.

Lemma Z_compare_orderlike : OrderLike Z.compare.
Proof.
  split.
  - intros x y. apply Z.compare_antisym.
  - intros x y z. rewrite !Z.compare_lt_iff. lia.
  - intros x y z E. apply Z.compare_eq in E. by subst.
Qed.

Lemma bool_compare_orderlike : OrderLike Bool.compare.
Proof.
  split.
  - by intros [] [].
  - by intros [] [] [].
  - by intros [] [] [].
Qed.

Lemma string_compare_orderlike : OrderLike String.compare.
Proof.
  split.
  - apply String.compare_antisym.
  - intros x. induction x as [|a x IH]; intros [|b y] [|c z]; simpl; try done.
    unfold Ascii.compare.
    destruct (N.compare (N_of_ascii a) (N_of_ascii b)) eqn:Eab; try done;
      destruct (N.compare (N_of_ascii b) (N_of_ascii c)) eqn:Ebc; try done;
      intros Hxy Hyz.
    + apply N.compare_eq in Eab, Ebc. rewrite Eab, Ebc, N.compare_refl. eauto.
    + apply N.compare_eq in Eab. by rewrite Eab, Ebc.
    + apply N.compare_eq in Ebc. by rewrite <-Ebc, Eab.
    + by rewrite (cmp_trans_lt _ N_compare_orderlike _ _ _ Eab Ebc).
  - intros x y z E. apply String.compare_eq_iff in E. by subst.
Qed.

Lemma valueCompare_eq x y : valueCompare x y = Eq → x = y.
Proof.
  destruct x as [|a|a|a], y as [|b|b|b]; simpl; try done.
  - by destruct a, b.
  - intros E. apply Z.compare_eq in E. by subst.
  - intros E. apply String.compare_eq_iff in E. by subst.
Qed.

Lemma valueCompare_orderlike : OrderLike valueCompare.
Proof.
  split.
  - intros [|a|a|a] [|b|b|b]; simpl; try done.
    + apply bool_compare_orderlike.
    + apply Z_compare_orderlike.
    + apply string_compare_orderlike.
  - intros [|a|a|a] [|b|b|b] [|c|c|c]; simpl; try done.
    + apply bool_compare_orderlike.
    + apply Z_compare_orderlike.
    + apply string_compare_orderlike.
  - intros x y z E. apply valueCompare_eq in E. by subst.
Qed.

Lemma OrderLike_refl {A} (c : A → A → comparison) x : OrderLike c → c x x = Eq.
Proof.
  intros Hc. pose proof (cmp_antisym _ Hc x x) as E.
  by destruct (c x x).
Qed.

Lemma OrderLike_gt_lt {A} (c : A → A → comparison) x y :
  OrderLike c → c x y = Gt ↔ c y x = Lt.
Proof.
  intros Hc. rewrite (cmp_antisym _ Hc x y). by destruct (c y x).
Qed.

(** The key of a document at one order, as a comparison of documents. *)
Lemma directed_orderlike {A} (c : A → A → comparison) dir :
  OrderLike c → OrderLike (λ x y, directed dir (c x y)).
Proof.
  intros Hc. destruct dir; simpl.
  - by destruct Hc.
  - split.
    + intros x y. by rewrite (cmp_antisym _ Hc x y).
    + intros x y z Hxy Hyz.
      rewrite (cmp_antisym _ Hc x z).
      rewrite (cmp_trans_lt _ Hc z y x); [done| |].
      * rewrite (cmp_antisym _ Hc) in Hyz. by destruct (c z y).
      * rewrite (cmp_antisym _ Hc) in Hxy. by destruct (c y x).
    + intros x y z E. f_equal. apply (cmp_eq_l _ Hc).
      by destruct (c x y).
Qed.

Lemma lexicographic_orderlike {A} (c1 c2 : A → A → comparison) :
  OrderLike c1 → OrderLike c2 →
  OrderLike (λ x y, match c1 x y with Eq => c2 x y | c => c end).
Proof.
  intros H1 H2. split.
  - intros x y. rewrite (cmp_antisym _ H1 x y), (cmp_antisym _ H2 x y).
    by destruct (c1 y x).
  - intros x y z.
    destruct (c1 x y) eqn:Exy; try done; destruct (c1 y z) eqn:Eyz; try done.
    + rewrite (cmp_eq_l _ H1 _ _ _ Exy), Eyz. apply (cmp_trans_lt _ H2).
    + by rewrite (cmp_eq_l _ H1 _ _ _ Exy), Eyz.
    + assert (c1 x z = Lt) as ->; [|done].
      rewrite (cmp_antisym _ H1). rewrite (cmp_antisym _ H1) in Eyz.
      assert (c1 z y = Eq) as Ezy by (by destruct (c1 z y)).
      rewrite (cmp_eq_l _ H1 _ _ _ Ezy).
      rewrite (cmp_antisym _ H1), Exy. done.
    + by rewrite (cmp_trans_lt _ H1 _ _ _ Exy Eyz).
  - intros x y z.
    destruct (c1 x y) eqn:Exy; try done. intros E2.
    by rewrite (cmp_eq_l _ H1 _ _ _ Exy), (cmp_eq_l _ H2 _ _ _ E2).
Qed.

Section order_facts.
Context `{Document D}.

Lemma docCompare_orderlike os : OrderLike (docCompare (D:=D) os).
Proof.
  induction os as [|[p dir] os IH]; simpl.
  - by split.
  - apply (lexicographic_orderlike
             (λ d1 d2, directed dir (valueCompare (keyOf d1 p) (keyOf d2 p)))
             (docCompare os)); [|done].
    apply (directed_orderlike (λ d1 d2, valueCompare (keyOf d1 p) (keyOf d2 p))).
    split.
    + intros x y. apply (cmp_antisym _ valueCompare_orderlike).
    + intros x y z. apply (cmp_trans_lt _ valueCompare_orderlike).
    + intros x y z. apply (cmp_eq_l _ valueCompare_orderlike).
Qed.

Global Instance docLe_total os : Total (docLe (D:=D) os).
Proof.
  intros x y. unfold docLe.
  rewrite (cmp_antisym _ (docCompare_orderlike os) y x).
  destruct (docCompare os x y); simpl; auto.
Qed.

Global Instance docLe_transitive os : Transitive (docLe (D:=D) os).
Proof.
  intros x y z. unfold docLe. pose proof (docCompare_orderlike os) as Ho.
  destruct (docCompare os x y) eqn:Exy; [| |done]; intros _.
  - by rewrite (cmp_eq_l _ Ho _ _ _ Exy).
  - destruct (docCompare os y z) eqn:Eyz; [| |done]; intros _.
    + rewrite (cmp_antisym _ Ho). rewrite (cmp_antisym _ Ho) in Eyz.
      assert (docCompare os z y = Eq) as Ezy
        by (by destruct (docCompare os z y)).
      rewrite (cmp_eq_l _ Ho _ _ _ Ezy), (cmp_antisym _ Ho), Exy. done.
    + by rewrite (cmp_trans_lt _ Ho _ _ _ Exy Eyz).
Qed.

Lemma ordered_sorted q (docs : list D) :
  StronglySorted (docLe (normalizedOrders (explicitOrders q))) (ordered q docs).
Proof. apply StronglySorted_merge_sort; apply _. Qed.

Lemma ordered_elem_of q (docs : list D) d :
  d ∈ ordered q docs ↔
  d ∈ docs ∧ matchesFilters q d = true ∧ hasOrderedFields q d = true.
Proof.
  unfold ordered. rewrite merge_sort_Permutation, list_elem_of_filter.
  rewrite andb_True, !Is_true_true. tauto.
Qed.
End order_facts.

(** ** savePageToCollection *)

Section page_writer.
Variable fault : nat → option Error.
Variable autoId : nat → string.

(** C9.  What [savePageToCollection] does with and without metadata.
    With metadata, when the store accepts the write, it makes exactly one
    call to the store, a write to the destination, which appends exactly
    one entry whose fields are the three arguments unmodified; the
    entries already there, the source collection and the earlier calls
    are unchanged.  Without metadata, the entry handed to [addDoc] has an
    undefined field: the call is refused with an invalid-argument error,
    no entry is written and no call reaches the store. *)
Theorem savePageToCollection_one_entry data cursor w :
  (∀ m : Metadata,
     fault (length (journal w)) = None →
     let e := {| cursor := cursor; data := data; metadata := Some m |} in
     let i := autoId (length (journal w)) in
     savePageToCollection fault autoId data cursor (Some m) w =
       (Ok (),
        {| source := source w;
           destination := destination w ++ [{| doc_id := i; doc_data := e |}];
           journal := journal w ++ [WriteDestination e (Ok i)] |}))
  ∧ savePageToCollection fault autoId data cursor None w
    = (Err InvalidArgument, w).
Proof.
  split; [|done].
  intros m Hok. unfold savePageToCollection, addDoc. simpl. by rewrite Hok.
Qed.

Lemma savePageToCollection_failure data cursor (m : Metadata) w err :
  fault (length (journal w)) = Some err →
  let e := {| cursor := cursor; data := data; metadata := Some m |} in
  savePageToCollection fault autoId data cursor (Some m) w =
    (Err err, record (WriteDestination e (Err err)) w).
Proof.
  intros Hko. unfold savePageToCollection, addDoc. simpl. by rewrite Hko.
Qed.

(** Saving a page [readPages] built: its metadata is always defined. *)
Lemma savePage_pageOf base k docs w :
  savePage fault autoId (pageOf base k docs) w =
    match fault (length (journal w)) with
    | Some err =>
        (Err err,
         record (WriteDestination (pageOf base k docs) (Err err)) w)
    | None =>
        (Ok (),
         {| source := source w;
            destination :=
              destination w
              ++ [{| doc_id := autoId (length (journal w));
                     doc_data := pageOf base k docs |}];
            journal :=
              journal w
              ++ [WriteDestination (pageOf base k docs)
                    (Ok (autoId (length (journal w))))] |})
    end.
Proof.
  unfold savePage, savePageToCollection, addDoc. simpl.
  by destruct (fault _).
Qed.
End page_writer.

Lemma savePageToCollection_one_entry_witness :
  reliable (length (journal emptyWorld)) = None ∧
  savePageToCollection reliable letterId
    [{["title" := VStr "x"]}] (Some "k") (Some {["id" := VStr "a"]})
    emptyWorld =
    (Ok (),
     {| source := ∅;
        destination :=
          [{| doc_id := "A";
              doc_data := {| cursor := Some "k";
                             data := [{["title" := VStr "x"]}];
                             metadata := Some {["id" := VStr "a"]} |} |}];
        journal :=
          [WriteDestination
             {| cursor := Some "k"; data := [{["title" := VStr "x"]}];
                metadata := Some {["id" := VStr "a"]} |} (Ok "A")] |}).
Proof.
  split; [reflexivity|].
  apply (proj1 (savePageToCollection_one_entry reliable letterId
                  [{["title" := VStr "x"]}] (Some "k") emptyWorld)).
  reflexivity.
Defined.

(** ** readPages: one resumption *)

Lemma collect_spec (docs : list (Snapshot DocumentData)) :
  collect docs = (doc_data <$> docs, doc_id <$> last docs).
Proof.
  unfold collect.
  assert (∀ acc c,
    foldl (λ (acc : list DocumentData * option string) doc,
             (acc.1 ++ [doc_data doc], Some (doc_id doc))) (acc, c) docs =
    (acc ++ (doc_data <$> docs),
     match last docs with Some d => Some (doc_id d) | None => c end)) as Hgen.
  { induction docs as [|d docs IH]; intros acc c; simpl.
    - by rewrite app_nil_r.
    - rewrite IH. simpl. rewrite <-app_assoc. f_equal.
      rewrite last_cons. by destruct (last docs). }
  rewrite Hgen. simpl. by destruct (last docs).
Qed.

Section reader.
Variable fault : nat → option Error.
Variables (queryParams : list QueryConstraint) (batchSize : Z).
Variable base : option Metadata.

Local Abbreviation next :=
  (readPages_next fault queryParams batchSize base).

Lemma readPages_next_cases st w :
  match readPages_query queryParams batchSize (lastCursor st) with
  | Err e => next st w = (Throw e, w)
  | Ok q =>
      match fault (length (journal w)) with
      | Some e => next st w = (Throw e, record (ReadSource q (Err e)) w)
      | None =>
          let docs := execute q (sourceDocs w) in
          next st w =
            (match docs with
             | [] => Return
             | _ => Yield (pageOf base (pageNumber st) docs)
                      {| lastCursor := last docs;
                         pageNumber := pageNumber st + 1 |}
             end,
             record (ReadSource q (Ok docs)) w)
      end
  end.
Proof.
  unfold readPages_next, getDocsSource.
  destruct (readPages_query _ _ _) as [q|e]; [|done].
  destruct (fault _) as [e|]; [done|]. simpl.
  destruct (execute q (sourceDocs w)) as [|d docs] eqn:E; [done|].
  rewrite collect_spec. done.
Qed.

(** A document identifier as the bound of a later query: it is accepted
    when the caller gave an [orderBy] clause to read it against, and
    refused when the caller gave none. *)
Lemma validBound_string os s :
  validBound os (VStr s) = match os with [] => false | _ => true end.
Proof.
  destruct os as [|[p d] os]; simpl; [done|].
  by destruct (decide (p = keyField)).
Qed.

Lemma readPages_query_later c q0 :
  readPages_query queryParams batchSize None = Ok q0 →
  readPages_query queryParams batchSize (Some c) =
    match explicitOrders q0 with
    | [] => Err InvalidArgument
    | _ =>
        Ok {| filters := filters q0; explicitOrders := explicitOrders q0;
              limitTo := limitTo q0; bound := Some (VStr (doc_id c)) |}
    end.
Proof.
  unfold readPages_query. destruct (limit batchSize) as [l|e]; [|done].
  simpl. destruct (query _ _) as [q|e]; [|done]. simpl.
  intros [= ->]. rewrite validBound_string. by destruct (explicitOrders q0).
Qed.

Lemma readPages_query_error c e :
  readPages_query queryParams batchSize None = Err e →
  readPages_query queryParams batchSize c = Err e.
Proof.
  unfold readPages_query. destruct (limit batchSize) as [l|e']; [|done].
  simpl. by destruct (query _ _) as [q|e'].
Qed.

(** *** Page numbers *)

Lemma drain_readPages_metadata fuel st w k page :
  (drain next fuel st w).1.1 !! k = Some page →
  metadata page = Some (pageMetadata base (pageNumber st + Z.of_nat k)).
Proof.
  revert st w k. induction fuel as [|fuel IH]; intros st w k; [done|].
  simpl. pose proof (readPages_next_cases st w) as Hn.
  destruct (readPages_query _ _ _) as [q|e]; [|by rewrite Hn].
  destruct (fault _) as [e|]; [by rewrite Hn|].
  simpl in Hn. rewrite Hn. clear Hn.
  destruct (execute q (sourceDocs w)) as [|d docs]; [done|].
  destruct (drain next fuel _ _) as [[ys o] w''] eqn:Ed.
  destruct k as [|k]; simpl.
  - intros [= <-]. simpl. do 2 f_equal. lia.
  - intros Hk.
    pose proof (IH {| lastCursor := last (d :: docs);
                      pageNumber := pageNumber st + 1 |}
                   (record (ReadSource q (Ok (d :: docs))) w) k) as IH'.
    rewrite Ed in IH'. rewrite (IH' Hk). simpl. do 2 f_equal. lia.
Qed.

(** C5. The (k+1)-th page yielded by one call of [readPages] (the page
    at index [k] of what a consumer receives, however far it gets)
    carries as metadata the caller's base metadata, if any, merged with
    the page number [k+1], which overwrites a caller field of the same
    name: the metadata is always defined and contains [pageNumber],
    which starts at 1 and grows by one from a page to the next. *)
Theorem readPages_metadata_pageNumber fuel w k page :
  (drain next fuel readPages w).1.1 !! k = Some page →
  metadata page =
    Some (<["pageNumber" := VNum (Z.of_nat k + 1)]> (default ∅ base))
  ∧ (metadata page ≫= (.!! "pageNumber")) = Some (VNum (Z.of_nat k + 1))
  ∧ ∀ key, key ≠ "pageNumber" →
      (metadata page ≫= (.!! key)) = (base ≫= (.!! key)).
Proof.
  intros Hk. apply drain_readPages_metadata in Hk. rewrite Hk. simpl.
  replace (1 + Z.of_nat k)%Z with (Z.of_nat k + 1)%Z by lia.
  assert (pageMetadata base (Z.of_nat k + 1) =
          <["pageNumber" := VNum (Z.of_nat k + 1)]> (default ∅ base)) as ->.
  { destruct base; simpl; [done|]. by rewrite insert_empty. }
  split; [done|]. split.
  - by rewrite lookup_insert_eq.
  - intros key Hkey. rewrite lookup_insert_ne by done.
    destruct base; simpl; [done|]. apply lookup_empty.
Qed.
End reader.

Lemma readPages_metadata_pageNumber_witness :
  ∃ page,
    (drain (readPages_next reliable sortedById 1
              (Some {["pageNumber" := VStr "x"]}))
       10 readPages threeDocs).1.1 !! 1 = Some page
    ∧ data page = [{["t" := VNum 2]}]
    ∧ metadata page = Some {["pageNumber" := VNum 2]}.
Proof.
  eexists. split; [vm_compute; reflexivity|]. split; [reflexivity|].
  refine (eq_trans
            (proj1 (readPages_metadata_pageNumber reliable sortedById
                      1 (Some {["pageNumber" := VStr "x"]}) 10 threeDocs 1 _ _))
            _).
  - vm_compute. reflexivity.
  - vm_compute. reflexivity.
Defined.

(** ** materializePaginationResults: the calls it makes *)


Section materializer.
Variable fault : nat → option Error.
Variable autoId : nat → string.
Variables (queryParams : list QueryConstraint) (batchSize : Z).
Variable base : option Metadata.

Local Abbreviation loop :=
  (materializeLoop fault autoId queryParams batchSize base).

Lemma materializeLoop_calls fuel st w o w' :
  loop fuel st w = (o, w') →
  ∃ calls,
    journal w' = journal w ++ calls
    ∧ Sequential queryParams batchSize base (sourceDocs w) st calls
    ∧ destination w' = destination w ++ written calls
    ∧ source w' = source w
    ∧ (∀ i c, calls !! i = Some c →
         failure c = fault (length (journal w) + i))
    ∧ match o with
      | Completed => ∃ q, last calls = Some (ReadSource q (Ok []))
      | Aborted e =>
          (∃ c, last calls = Some c ∧ failure c = Some e)
          ∨ (Forall (λ c, succeeded c = true) calls
             ∧ readPages_query queryParams batchSize
                 (cursorAfter (lastCursor st) calls) = Err e)
      | OutOfFuel => Forall (λ c, succeeded c = true) calls
      end.
Proof.
  revert st w o w'.
  induction fuel as [|fuel IH]; intros st w o w'; simpl.
  { intros [= <- <-]. exists []. rewrite !app_nil_r.
    repeat split; try done. constructor. }
  pose proof (readPages_next_cases fault queryParams batchSize base st w) as Hn.
  destruct (readPages_query queryParams batchSize (lastCursor st))
    as [q|e0] eqn:Hq.
  2:{ rewrite Hn. intros [= <- <-]. exists []. rewrite !app_nil_r.
      repeat split; try done; [constructor|]. right. by split. }
  destruct (fault (length (journal w))) as [e|] eqn:Hf.
  { rewrite Hn. intros [= <- <-]. exists [ReadSource q (Err e)].
    repeat split; try done.
    - by constructor.
    - simpl. by rewrite app_nil_r.
    - intros [|i] c; simpl; [|done]. intros [= <-]. simpl.
      by rewrite Nat.add_0_r.
    - left. by eexists. }
  simpl in Hn. rewrite Hn. clear Hn.
  destruct (execute q (sourceDocs w)) as [|d docs] eqn:Ex.
  { intros [= <- <-]. exists [ReadSource q (Ok [])].
    repeat split; try done.
    - by constructor.
    - simpl. by rewrite app_nil_r.
    - intros [|i] c; simpl; [|done]. intros [= <-]. simpl.
      by rewrite Nat.add_0_r.
    - by eexists. }
  set (w1 := record (ReadSource q (Ok (d :: docs))) w).
  set (page := pageOf base (pageNumber st) (d :: docs)).
  assert (length (journal w1) = S (length (journal w))) as Hlen.
  { unfold w1. simpl. rewrite length_app. simpl. lia. }
  assert (execute q (sourceDocs w) ≠ []) as Hne by (by rewrite Ex).
  unfold page. rewrite savePage_pageOf. fold page.
  destruct (fault (length (journal w1))) as [e|] eqn:Hf1.
  { intros [= <- <-].
    exists [ReadSource q (Ok (d :: docs)); WriteDestination page (Err e)].
    repeat split; try done.
    - simpl. by rewrite <-app_assoc.
    - unfold page. rewrite <-Ex. by constructor.
    - simpl. by rewrite app_nil_r.
    - intros [|[|i]] c; simpl; try done; intros [= <-]; simpl.
      + by rewrite Nat.add_0_r.
      + by rewrite Nat.add_1_r, <-Hlen.
    - left. by eexists. }
  set (i1 := autoId (length (journal w1))).
  set (w2 := {| source := _; destination := _; journal := _ |}).
  intros Hloop. apply IH in Hloop as (calls & Hj & Hs & Hd & Hsrc & Hfl & Ho).
  exists (ReadSource q (Ok (d :: docs))
          :: WriteDestination page (Ok i1) :: calls).
  repeat split.
  - rewrite Hj. unfold w2, w1. simpl. by rewrite <-!app_assoc.
  - change (sourceDocs w2) with (sourceDocs w) in Hs.
    unfold page. rewrite <-Ex. apply seq_step; [done|done|].
    by rewrite Ex.
  - rewrite Hd. unfold w2, w1. simpl. by rewrite <-app_assoc.
  - by rewrite Hsrc.
  - intros [|[|i]] c; simpl.
    + intros [= <-]. simpl. by rewrite Nat.add_0_r.
    + intros [= <-]. simpl. by rewrite Nat.add_1_r, <-Hlen.
    + intros Hi. rewrite (Hfl i c Hi). f_equal.
      unfold w2, w1. simpl. rewrite !length_app. simpl. lia.
  - destruct o as [|e|].
    + destruct Ho as [q' Hl]. exists q'.
      by rewrite !last_cons, Hl.
    + destruct Ho as [(c & Hl & Hc)|[Hall Hbuild]].
      * left. exists c. by rewrite !last_cons, Hl.
      * right. split; [by repeat constructor|exact Hbuild].
    + by repeat constructor.
Qed.

End materializer.


(** ** Sorted lists *)

Lemma StronglySorted_filter {A} (R : relation A) (P : A → Prop)
    `{∀ x, Decision (P x)} l :
  StronglySorted R l → StronglySorted R (filter P l).
Proof.
  induction 1 as [|x l Hl IH Hx]; [constructor|].
  rewrite filter_cons. destruct (decide (P x)); [|done].
  constructor; [done|].
  apply Forall_forall. intros y Hy. apply list_elem_of_filter in Hy as [_ Hy].
  by eapply Forall_forall in Hx.
Qed.

Lemma filter_none {A} (P : A → Prop) `{∀ x, Decision (P x)} l :
  Forall (λ x, ¬ P x) l → filter P l = [].
Proof.
  induction 1 as [|x l Hx Hl IH]; [done|].
  by rewrite filter_cons_False.
Qed.

Lemma filter_all {A} (P : A → Prop) `{∀ x, Decision (P x)} l :
  Forall P l → filter P l = l.
Proof.
  induction 1 as [|x l Hx Hl IH]; [done|].
  rewrite filter_cons_True by done. by f_equal.
Qed.

Lemma StronglySorted_last {A} (R : relation A) l x y :
  StronglySorted R l → last l = Some x → y ∈ l → y = x ∨ R y x.
Proof.
  intros Hs Hl Hy. apply last_Some in Hl as [l' ->].
  apply elem_of_app in Hy as [Hy|Hy].
  - right. eapply StronglySorted_app_1_elem_of; [done..|]. by left.
  - left. by apply list_elem_of_singleton in Hy.
Qed.

(** ** Field paths *)

Lemma splitDots_nonempty s : splitDots s ≠ [].
Proof.
  destruct s as [|c s]; simpl; [done|].
  destruct (Ascii.eqb c "."); [done|]. by destruct (splitDots s).
Qed.

Lemma splitDots_singleton s seg : splitDots s = [seg] → seg = s.
Proof.
  revert seg. induction s as [|c s IH]; intros seg; simpl.
  - by intros [= <-].
  - destruct (Ascii.eqb c ".").
    + intros [= _ Hs]. by apply splitDots_nonempty in Hs.
    + destruct (splitDots s) as [|seg' rest] eqn:E;
        [by apply splitDots_nonempty in E|].
      intros [= <- ->]. f_equal. by apply IH.
Qed.

Lemma splitDots_metadata key :
  splitDots ("metadata." +:+ key) = "metadata" :: splitDots key.
Proof. reflexivity. Qed.

Lemma hasReserved_metadata key :
  hasReserved ("metadata." +:+ key) = hasReserved key.
Proof. reflexivity. Qed.

(** The value a stored entry has at the nested metadata field a filter
    key names. *)
Lemma entry_metadata_field (d : Snapshot PaginationData) key v :
  fieldOf d ("metadata" :: splitDots key) = Some v →
  metadata (doc_data d) ≫= (.!! key) = Some v.
Proof.
  destruct (splitDots key) as [|seg [|seg' rest]] eqn:E.
  - by apply splitDots_nonempty in E.
  - apply splitDots_singleton in E as ->.
    unfold fieldOf. rewrite decide_False by done. done.
  - unfold fieldOf. rewrite decide_False by done. done.
Qed.

Lemma entry_cursor_key (d : Snapshot PaginationData) :
  keyOf d ["cursor"] = cursorValue (cursor (doc_data d)).
Proof. reflexivity. Qed.

(** ** readMaterializedPages: the query and one resumption *)

Lemma addFilters_spec q entries :
  addFilters q entries =
    if forallb validKey entries.*1 then
      Ok {| filters := filters q ++ filterPairs entries;
            explicitOrders := explicitOrders q;
            limitTo := limitTo q; bound := bound q |}
    else Err InvalidArgument.
Proof.
  revert q. induction entries as [|[key v] entries IH]; intros q; simpl.
  - rewrite app_nil_r. by destruct q.
  - unfold where_, parseFieldPath, validKey.
    rewrite hasReserved_metadata, splitDots_metadata.
    destruct (hasReserved key); [done|].
    destruct (bool_decide _); [done|]. simpl.
    rewrite IH. simpl. destruct (forallb _ _); [|done].
    by rewrite <-app_assoc.
Qed.

Lemma readMaterializedPages_query_spec metadataFilter c :
  readMaterializedPages_query metadataFilter c =
    if validFilter metadataFilter then Ok (replayQuery metadataFilter c)
    else Err InvalidArgument.
Proof.
  unfold readMaterializedPages_query, replayQuery, validFilter.
  assert (orderBy "cursor" Asc = Ok (OrderBy ["cursor"] Asc)) as -> by done.
  simpl. destruct metadataFilter as [f|]; [|done].
  rewrite addFilters_spec. by destruct (forallb _ _).
Qed.

Section replay_step.
Variable fault : nat → option Error.
Variable metadataFilter : option Metadata.

Local Abbreviation rnext :=
  (readMaterializedPages_next fault metadataFilter).

Lemma readMaterializedPages_next_cases st w :
  match pending st with
  | doc :: rest =>
      rnext st w =
        (Yield (toPage doc)
           {| lastSeen := cursor (doc_data doc); pending := rest |}, w)
  | [] =>
      if validFilter metadataFilter then
        let q := replayQuery metadataFilter (lastSeen st) in
        match fault (length (journal w)) with
        | Some e =>
            rnext st w = (Throw e, record (ReadDestination q (Err e)) w)
        | None =>
            let docs := execute q (destination w) in
            rnext st w =
              (match docs with
               | [] => Return
               | doc :: rest =>
                   Yield (toPage doc)
                     {| lastSeen := cursor (doc_data doc); pending := rest |}
               end,
               record (ReadDestination q (Ok docs)) w)
        end
      else rnext st w = (Throw InvalidArgument, w)
  end.
Proof.
  unfold readMaterializedPages_next, getDocsDestination.
  destruct (pending st) as [|doc rest]; [|done].
  rewrite readMaterializedPages_query_spec.
  destruct (validFilter _); [|done].
  destruct (fault _) as [e|]; [done|]. simpl.
  by destruct (execute _ _).
Qed.

(** What a snapshot of the destination holds satisfies the filter. *)
Lemma replay_snapshot_satisfies c w doc :
  doc ∈ execute (replayQuery metadataFilter c) (destination w) →
  satisfies metadataFilter (metadata (doc_data doc)).
Proof.
  unfold execute, truncate. simpl. intros Hd.
  apply list_elem_of_filter in Hd as [_ Hd].
  apply ordered_elem_of in Hd as (_ & Hm & _).
  intros f key v -> Hkv.
  unfold matchesFilters in Hm. simpl in Hm.
  rewrite forallb_forall in Hm.
  apply entry_metadata_field.
  specialize (Hm ("metadata" :: splitDots key, v)).
  simpl in Hm. apply bool_decide_eq_true in Hm; [done|].
  apply list_elem_of_In, list_elem_of_fmap.
  exists (key, v). split; [done|]. by apply elem_of_map_to_list.
Qed.

Lemma drain_replay_satisfies fuel st w :
  Forall (λ doc, satisfies metadataFilter (metadata (doc_data doc)))
    (pending st) →
  Forall (λ y, satisfies metadataFilter (page_metadata y))
    (drain rnext fuel st w).1.1.
Proof.
  revert st w. induction fuel as [|fuel IH]; intros st w Hp; simpl.
  { constructor. }
  pose proof (readMaterializedPages_next_cases st w) as Hn.
  destruct (pending st) as [|doc rest] eqn:Ep.
  - destruct (validFilter _); [|by rewrite Hn; constructor].
    destruct (fault _) as [e|]; [by rewrite Hn; constructor|].
    simpl in Hn. rewrite Hn. clear Hn.
    destruct (execute _ _) as [|doc rest] eqn:Ex; [constructor|].
    assert (Forall (λ doc, satisfies metadataFilter (metadata (doc_data doc)))
              (doc :: rest)) as Hall.
    { apply Forall_forall. intros d Hd. rewrite <-Ex in Hd.
      by eapply replay_snapshot_satisfies. }
    inversion Hall as [|? ? Hdoc Hrest]; subst.
    match goal with
    | |- context [drain rnext fuel ?s ?v] =>
        specialize (IH s v Hrest); destruct (drain rnext fuel s v) as [[ys o] w'']
    end.
    by constructor.
  - rewrite Hn. clear Hn.
    inversion Hp as [|? ? Hdoc Hrest]; subst.
    match goal with
    | |- context [drain rnext fuel ?s ?v] =>
        specialize (IH s v Hrest); destruct (drain rnext fuel s v) as [[ys o] w'']
    end.
    by constructor.
Qed.
End replay_step.

(** ** readMaterializedPages: a complete traversal *)

Lemma replay_orders :
  normalizedOrders [(["cursor"], Asc)] = [(["cursor"], Asc); (keyField, Asc)].
Proof. reflexivity. Qed.

Lemma afterBound_replay metadataFilter c (x : Snapshot PaginationData) :
  afterBound (replayQuery metadataFilter c) x = true ↔
  valueCompare (cursorValue (cursor (doc_data x))) (cursorValue c) = Gt.
Proof.
  unfold afterBound. simpl.
  rewrite entry_cursor_key. apply bool_decide_eq_true.
Qed.

Lemma execute_replay metadataFilter c dst :
  execute (replayQuery metadataFilter c) dst =
  filter (λ x, afterBound (replayQuery metadataFilter c) x = true)
    (ordered (replayQuery metadataFilter None) dst).
Proof. reflexivity. Qed.

Lemma valueCompare_gt_trans x y z :
  valueCompare x y = Gt → valueCompare y z = Gt → valueCompare x z = Gt.
Proof.
  rewrite !(OrderLike_gt_lt valueCompare) by apply valueCompare_orderlike.
  intros Hyx Hzy. by apply (cmp_trans_lt _ valueCompare_orderlike z y x).
Qed.

Lemma replay_second_query_empty metadataFilter dst d :
  last (execute (replayQuery metadataFilter None) dst) = Some d →
  execute (replayQuery metadataFilter (cursor (doc_data d))) dst = [].
Proof.
  rewrite !execute_replay. intros Hl.
  apply filter_none, Forall_forall. intros x Hx Hafter.
  apply afterBound_replay in Hafter.
  assert (d ∈ filter
            (λ x, afterBound (replayQuery metadataFilter None) x = true)
            (ordered (replayQuery metadataFilter None) dst)) as Hd.
  { apply last_Some in Hl as [l' ->]. apply elem_of_app. right. by left. }
  apply list_elem_of_filter in Hd as [Hd _]. apply afterBound_replay in Hd.
  assert (x ∈ filter
            (λ x, afterBound (replayQuery metadataFilter None) x = true)
            (ordered (replayQuery metadataFilter None) dst)) as Hx'.
  { apply list_elem_of_filter. split; [|done].
    apply afterBound_replay. by eapply valueCompare_gt_trans. }
  pose proof (StronglySorted_filter _
    (λ x, afterBound (replayQuery metadataFilter None) x = true) _
    (ordered_sorted (replayQuery metadataFilter None) dst)) as Hsorted.
  destruct (StronglySorted_last _ _ d x Hsorted Hl Hx') as [->|Hle].
  - by rewrite (OrderLike_refl valueCompare) in Hafter
      by apply valueCompare_orderlike.
  - apply Hle. simpl.
    by rewrite !entry_cursor_key, Hafter.
Qed.

Section replay_run.
Variable fault : nat → option Error.
Variable metadataFilter : option Metadata.
Hypothesis fault_free : ∀ n, fault n = None.
Hypothesis filter_valid : validFilter metadataFilter = true.

Local Abbreviation rnext' :=
  (readMaterializedPages_next fault metadataFilter).

Lemma drain_pending l c w fuel :
  length l < fuel →
  execute (replayQuery metadataFilter (seenAfter c l)) (destination w) = [] →
  drain rnext' fuel {| lastSeen := c; pending := l |} w =
    (toPage <$> l, Completed,
     record (ReadDestination (replayQuery metadataFilter (seenAfter c l))
               (Ok [])) w).
Proof.
  revert c fuel. induction l as [|d l IH]; intros c fuel Hfuel Hempty;
    (destruct fuel as [|fuel]; [simpl in Hfuel; lia|]); simpl.
  - pose proof (readMaterializedPages_next_cases fault metadataFilter
                  {| lastSeen := c; pending := [] |} w) as Hn.
    simpl in Hn. rewrite filter_valid, fault_free in Hn.
    unfold seenAfter in Hempty. simpl in Hempty.
    rewrite Hn, Hempty. done.
  - rewrite (IH (cursor (doc_data d)) fuel).
    + simpl. unfold seenAfter. rewrite last_cons.
      by destruct (last l).
    + simpl in Hfuel. lia.
    + unfold seenAfter in *. rewrite last_cons in Hempty.
      by destruct (last l).
Qed.

Lemma replay_run w fuel :
  let snapshot :=
    execute (replayQuery metadataFilter None) (destination w) in
  length snapshot < fuel →
  drain rnext' fuel readMaterializedPages w =
    (toPage <$> snapshot, Completed,
     {| source := source w; destination := destination w;
        journal := journal w ++ replayCalls metadataFilter snapshot |}).
Proof.
  intros snapshot Hfuel.
  destruct fuel as [|fuel]; [lia|]. simpl.
  pose proof (readMaterializedPages_next_cases fault metadataFilter
                readMaterializedPages w) as Hn.
  simpl in Hn. rewrite filter_valid, fault_free in Hn. rewrite Hn. clear Hn.
  fold snapshot. unfold replayCalls.
  destruct snapshot as [|d rest] eqn:Es; [done|].
  set (w1 := record _ w).
  assert (last (d :: rest) = Some (default d (last rest))) as Hlast.
  { rewrite last_cons. by destruct (last rest). }
  rewrite (drain_pending rest (cursor (doc_data d)) w1 fuel).
  - simpl. rewrite Hlast. unfold seenAfter, w1, record. simpl.
    rewrite <-app_assoc. simpl. by destruct (last rest).
  - simpl in Hfuel. lia.
  - assert (seenAfter (cursor (doc_data d)) rest =
            cursor (doc_data (default d (last rest)))) as ->.
    { unfold seenAfter. by destruct (last rest). }
    apply replay_second_query_empty. unfold w1. simpl.
    fold snapshot in Es. unfold snapshot in Es. by rewrite Es.
Qed.
End replay_run.

(** C6. Each key/value pair of a metadata filter becomes one equality
    constraint on the field of that key nested in [metadata]; whatever
    [readMaterializedPages] yields under the filter carries every pair of
    the filter in its stored metadata, so an entry that misses one is never
    yielded.  With two entries tagged [{id: a}] and [{id: b}], the filter
    [{id: a}] yields the data of the first entry only. *)
Theorem readMaterializedPages_metadata_filter fault (f : Metadata) fuel w :
  (∀ c q, readMaterializedPages_query (Some f) c = Ok q →
     filters q = filterPairs (map_to_list f))
  ∧ Forall (λ y, ∀ key v, f !! key = Some v →
              page_metadata y ≫= (.!! key) = Some v)
      (drain (readMaterializedPages_next fault (Some f)) fuel
         readMaterializedPages w).1.1
  ∧ (drain (readMaterializedPages_next reliable (Some {["id" := VStr "a"]}))
       5 readMaterializedPages twoEntries).1 =
    ([{| page_data := [recordOf 1];
         page_metadata := Some {["id" := VStr "a"]} |}], Completed).
Proof.
  split; [|split].
  - intros c q. rewrite readMaterializedPages_query_spec.
    destruct (validFilter _); [|done]. by intros [= <-].
  - pose proof (drain_replay_satisfies fault (Some f) fuel
                  readMaterializedPages w) as Hs.
    eapply Forall_impl; [apply Hs; constructor|].
    intros y Hy key v Hkv. by apply (Hy f key v).
  - vm_compute. reflexivity.
Qed.

Lemma readMaterializedPages_metadata_filter_witness :
  ({["id" := VStr "a"]} : Metadata) !! "id" = Some (VStr "a")
  ∧ Forall (λ y, page_metadata y ≫= (.!! "id") = Some (VStr "a"))
      (drain (readMaterializedPages_next reliable (Some {["id" := VStr "a"]}))
         5 readMaterializedPages twoEntries).1.1.
Proof.
  split; [reflexivity|].
  pose proof (readMaterializedPages_metadata_filter reliable
                {["id" := VStr "a"]} 5 twoEntries) as (_ & Hall & _).
  eapply Forall_impl; [exact Hall|].
  intros y Hy. apply Hy. reflexivity.
Defined.

(** C10. No query of [readMaterializedPages] carries a limit.  Against a
    store that fails no call and a destination nothing else writes to, the
    first query returns at once every entry that matches the filter and
    has a cursor to start after (a non-null one), in the order of the
    query; these are yielded one by one; when there are any, a second
    query, starting after the last cursor seen, returns nothing.  The
    traversal so ends after two queries, and after one when no entry
    matches. *)
Theorem readMaterializedPages_at_most_two_queries fault metadataFilter w fuel :
  (∀ n, fault n = None) →
  validFilter metadataFilter = true →
  let snapshot := execute (replayQuery metadataFilter None) (destination w) in
  length snapshot < fuel →
  (∀ c q, readMaterializedPages_query metadataFilter c = Ok q →
     limitTo q = None)
  ∧ (∀ d, d ∈ snapshot ↔
       d ∈ destination w
       ∧ matchesFilters (replayQuery metadataFilter None) d = true
       ∧ cursor (doc_data d) ≠ None)
  ∧ ∃ calls w',
      drain (readMaterializedPages_next fault metadataFilter) fuel
        readMaterializedPages w = (toPage <$> snapshot, Completed, w')
      ∧ journal w' = journal w ++ calls
      ∧ destination w' = destination w
      ∧ Forall (λ c, isReplayRead c = true ∧ unlimited c = true) calls
      ∧ length calls ≤ 2
      ∧ (snapshot = [] → length calls = 1)
      ∧ (snapshot ≠ [] →
           ∃ q1 q2, calls = [ReadDestination q1 (Ok snapshot);
                             ReadDestination q2 (Ok [])]).
Proof.
  intros Hfree Hvalid snapshot Hfuel. split; [|split].
  - intros c q. rewrite readMaterializedPages_query_spec, Hvalid.
    by intros [= <-].
  - intros d. unfold snapshot. rewrite execute_replay.
    rewrite list_elem_of_filter, ordered_elem_of, afterBound_replay.
    assert (hasOrderedFields (replayQuery metadataFilter None) d = true)
      as -> by done.
    assert (valueCompare (cursorValue (cursor (doc_data d))) (cursorValue None)
              = Gt ↔ cursor (doc_data d) ≠ None) as ->.
    { by destruct (cursor (doc_data d)). }
    tauto.
  - exists (replayCalls metadataFilter snapshot). eexists.
    split; [by apply replay_run|]. simpl.
    split; [done|]. split; [done|].
    unfold replayCalls.
    destruct snapshot as [|d rest] eqn:Es; simpl.
    + repeat split; try done; try lia. by repeat constructor.
    + destruct (last (d :: rest)) as [x|] eqn:El.
      * repeat split; simpl; try done; try lia.
        -- by repeat constructor.
        -- intros _. by eauto.
      * by apply last_None in El.
Qed.

Lemma readMaterializedPages_at_most_two_queries_witness :
  (∀ n, reliable n = None)
  ∧ validFilter (Some {["id" := VStr "a"]}) = true
  ∧ length (execute (replayQuery (Some {["id" := VStr "a"]}) None)
              (destination twoEntries)) < 5
  ∧ ∃ calls w',
      drain (readMaterializedPages_next reliable (Some {["id" := VStr "a"]})) 5
        readMaterializedPages twoEntries =
        (toPage <$> execute (replayQuery (Some {["id" := VStr "a"]}) None)
                      (destination twoEntries), Completed, w')
      ∧ journal w' = journal twoEntries ++ calls
      ∧ length calls ≤ 2.
Proof.
  assert (∀ n, reliable n = None) as H1 by reflexivity.
  assert (validFilter (Some {["id" := VStr "a"]}) = true) as H2
    by (vm_compute; reflexivity).
  assert (length (execute (replayQuery (Some {["id" := VStr "a"]}) None)
                    (destination twoEntries)) < 5) as H3
    by (vm_compute; lia).
  split; [exact H1|]. split; [exact H2|]. split; [exact H3|].
  destruct (readMaterializedPages_at_most_two_queries reliable
              (Some {["id" := VStr "a"]}) twoEntries 5 H1 H2 H3)
    as (_ & _ & calls & w' & Hrun & Hj & _ & _ & Hlen & _).
  exists calls, w'. auto.
Defined.

(** ** Batches *)

Lemma chunksAux_enough {A} (n fuel1 fuel2 : nat) (l : list A) :
  0 < n → length l ≤ fuel1 → length l ≤ fuel2 →
  chunksAux fuel1 n l = chunksAux fuel2 n l.
Proof.
  intros Hn. revert fuel2 l.
  induction fuel1 as [|fuel1 IH]; intros fuel2 l H1 H2.
  - destruct l; [|simpl in H1; lia]. by destruct fuel2.
  - destruct l as [|x l]; [by destruct fuel2|].
    destruct fuel2 as [|fuel2]; [simpl in H2; lia|]. simpl.
    f_equal. simpl in H1, H2.
    destruct n as [|n]; [lia|]. simpl.
    apply IH; rewrite length_drop; lia.
Qed.

Lemma chunks_nil {A} n : chunks n ([] : list A) = [].
Proof. reflexivity. Qed.

Lemma chunks_cons {A} (n : nat) (l : list A) :
  0 < n → l ≠ [] → chunks n l = take n l :: chunks n (drop n l).
Proof.
  intros Hn Hl. unfold chunks. destruct l as [|x l]; [done|]. simpl.
  f_equal. apply chunksAux_enough; [done| |done].
  destruct n as [|n]; [lia|]. simpl. rewrite length_drop. lia.
Qed.

Lemma chunks_ind {A} (n : nat) (Hn : 0 < n) (P : list A → Prop) :
  P [] →
  (∀ l, l ≠ [] → P (drop n l) → P l) →
  ∀ l, P l.
Proof.
  intros Hnil Hstep l.
  remember (length l) as len eqn:Hlen. revert l Hlen.
  induction len as [len IH] using lt_wf_ind. intros l ->.
  destruct l as [|x l]; [done|].
  apply Hstep; [done|]. eapply IH; [|done].
  rewrite length_drop. simpl. lia.
Qed.

Lemma chunks_concat {A} (n : nat) (l : list A) :
  0 < n → concat (chunks n l) = l.
Proof.
  intros Hn. induction l as [|l Hl IH] using (chunks_ind n Hn); [done|].
  rewrite chunks_cons by done. simpl. by rewrite IH, take_drop.
Qed.

Lemma chunks_nonempty {A} (n : nat) (l : list A) :
  0 < n → Forall (λ b, b ≠ []) (chunks n l).
Proof.
  intros Hn. induction l as [|l Hl IH] using (chunks_ind n Hn); [constructor|].
  rewrite chunks_cons by done. constructor; [|done].
  destruct l; [done|]. destruct n; [lia|done].
Qed.

(** The batch at index [k] holds the [n] records after the first [k * n],
    or those that remain. *)
Lemma chunks_lookup {A} (n : nat) (l : list A) k :
  0 < n →
  chunks n l !! k =
    if decide (k * n < length l) then Some (take n (drop (k * n) l)) else None.
Proof.
  intros Hn. revert k.
  induction l as [|l Hl IH] using (chunks_ind n Hn); intros k.
  - rewrite chunks_nil, decide_False by (simpl; lia). done.
  - rewrite chunks_cons by done. destruct k as [|k].
    + rewrite decide_True; [done|]. destruct l; [done|simpl; lia].
    + simpl. rewrite IH, length_drop, drop_drop.
      destruct (decide (k * n < length l - n)).
      * rewrite decide_True by lia. done.
      * rewrite decide_False by lia. done.
Qed.

Lemma chunks_length {A} (n : nat) (l : list A) :
  0 < n → length (chunks n l) = (length l + n - 1) / n.
Proof.
  intros Hn. induction l as [|l Hl IH] using (chunks_ind n Hn).
  - simpl. rewrite Nat.div_small; lia.
  - rewrite chunks_cons by done. simpl. rewrite IH, length_drop.
    assert (0 < length l) by (destruct l; [done|simpl; lia]).
    destruct (decide (n ≤ length l)).
    + replace (length l + n - 1) with ((length l - n + n - 1) + 1 * n) by lia.
      rewrite Nat.div_add by lia. lia.
    + replace (length l - n + n - 1) with (n - 1) by lia.
      rewrite (Nat.div_small (n - 1)) by lia.
      apply (Nat.div_unique _ _ 1 (length l - 1)); lia.
Qed.

(** ** Queries in document-identifier order over the source *)

Lemma query_filters q cs :
  forallb isFilter cs = true →
  query q cs =
    Ok {| filters := filters q ++ pairsOf cs;
          explicitOrders := explicitOrders q;
          limitTo := limitTo q; bound := bound q |}.
Proof.
  revert q. induction cs as [|c cs IH]; intros q Hcs; simpl.
  - rewrite app_nil_r. by destruct q.
  - destruct c; simpl in Hcs; try done.
    unfold applyConstraint. rewrite IH by done. simpl.
    by rewrite <-app_assoc.
Qed.

Lemma query_app q cs c :
  query q (cs ++ [c]) = query q cs ≫= λ q', applyConstraint q' c.
Proof.
  revert q. induction cs as [|c' cs IH]; intros q; simpl.
  - by destruct (applyConstraint q c).
  - destruct (applyConstraint q c'); [apply IH|done].
Qed.

Lemma query_byIdentifier q cs :
  byIdentifier cs = true →
  bound q = None →
  query q cs =
    Ok {| filters := filters q ++ pairsOf cs;
          explicitOrders := explicitOrders q ++ [(keyField, Asc)];
          limitTo := limitTo q; bound := None |}.
Proof.
  revert q. induction cs as [|c cs IH]; intros q Hcs Hb; [done|].
  simpl in Hcs. destruct (isIdOrder c) eqn:Hc.
  - destruct c as [| p [|] | |]; simpl in Hc; try done.
    apply bool_decide_eq_true in Hc as ->. simpl. rewrite Hb.
    by rewrite query_filters by done.
  - apply andb_true_iff in Hcs as [Hf Hcs].
    destruct c; simpl in Hf; try done. simpl.
    rewrite IH by done. simpl. by rewrite <-app_assoc.
Qed.

Lemma readPages_query_byIdentifier qs p c :
  byIdentifier qs = true →
  readPages_query qs (Zpos p) c =
    Ok (pageQuery qs p ((λ d, VStr (doc_id d)) <$> c)).
Proof.
  intros Hqs.
  assert (readPages_query qs (Z.pos p) None = Ok (pageQuery qs p None)) as H0.
  { unfold readPages_query. simpl.
    rewrite query_app, query_byIdentifier by done. done. }
  destruct c as [c|]; [|done].
  by rewrite (readPages_query_later _ _ c _ H0).
Qed.

(** Without an [orderBy] clause, the query of the first page is built and
    the query of every later page is refused. *)
Lemma readPages_query_unordered qs p c :
  forallb isFilter qs = true →
  readPages_query qs (Zpos p) c =
    match c with
    | None =>
        Ok {| filters := pairsOf qs; explicitOrders := [];
              limitTo := Some p; bound := None |}
    | Some _ => Err InvalidArgument
    end.
Proof.
  intros Hqs.
  assert (readPages_query qs (Z.pos p) None
          = Ok {| filters := pairsOf qs; explicitOrders := [];
                  limitTo := Some p; bound := None |}) as H0.
  { unfold readPages_query. simpl. rewrite query_app, query_filters by done.
    done. }
  destruct c as [c|]; [|done].
  by rewrite (readPages_query_later _ _ c _ H0).
Qed.

Lemma identifier_order :
  normalizedOrders [(keyField, Asc)] = [(keyField, Asc)].
Proof. reflexivity. Qed.

Lemma resultSet_byIdentifier qs w :
  byIdentifier qs = true →
  resultSet qs w = ordered (baseQuery qs) (sourceDocs w).
Proof.
  intros Hqs. unfold resultSet. rewrite query_byIdentifier by done.
  unfold execute, truncate. simpl. by apply filter_all, Forall_forall.
Qed.

Lemma execute_first_page qs p (docs : list (Snapshot DocumentData)) :
  execute (pageQuery qs p None) docs =
  take (Pos.to_nat p) (ordered (baseQuery qs) docs).
Proof.
  unfold execute, truncate. simpl. f_equal.
  by apply filter_all, Forall_forall.
Qed.

Lemma execute_later_page qs p c (docs : list (Snapshot DocumentData)) :
  execute (pageQuery qs p (Some (VStr c))) docs =
  take (Pos.to_nat p)
    (filter (λ d, String.compare (doc_id d) c = Gt)
       (ordered (baseQuery qs) docs)).
Proof.
  unfold execute, truncate. simpl. f_equal.
  apply list_filter_iff. intros d. unfold afterBound. simpl.
  by rewrite bool_decide_eq_true.
Qed.

Lemma sourceDocs_NoDup w : NoDup (doc_id <$> sourceDocs w).
Proof.
  unfold sourceDocs. rewrite <-list_fmap_compose.
  apply NoDup_fst_map_to_list.
Qed.

Lemma ordered_NoDup_ids q (docs : list (Snapshot DocumentData)) :
  NoDup (doc_id <$> docs) → NoDup (doc_id <$> ordered q docs).
Proof.
  intros Hnd. unfold ordered. rewrite merge_sort_Permutation.
  eapply sublist_NoDup; [exact Hnd|].
  apply fmap_sublist, sublist_filter.
Qed.

Lemma sorted_by_id_strict (l : list (Snapshot DocumentData)) :
  StronglySorted (docLe [(keyField, Asc)]) l →
  NoDup (doc_id <$> l) →
  StronglySorted idBefore l.
Proof.
  induction 1 as [|x l Hl IH Hx]; intros Hnd; [constructor|].
  rewrite fmap_cons in Hnd. apply NoDup_cons in Hnd as [Hnot Hnd].
  constructor; [by apply IH|].
  apply Forall_forall. intros y Hy.
  eapply Forall_forall in Hx; [|exact Hy].
  unfold docLe in Hx. simpl in Hx. unfold idBefore.
  change (keyOf x keyField) with (VStr (doc_id x)) in Hx.
  change (keyOf y keyField) with (VStr (doc_id y)) in Hx. simpl in Hx.
  destruct (String.compare (doc_id x) (doc_id y)) eqn:E; [|done|done].
  apply String.compare_eq_iff in E. exfalso. apply Hnot.
  rewrite E. by apply list_elem_of_fmap_2.
Qed.

Lemma resultSet_strict qs w :
  StronglySorted idBefore (ordered (baseQuery qs) (sourceDocs w)).
Proof.
  apply sorted_by_id_strict.
  - rewrite <-identifier_order. apply (ordered_sorted (baseQuery qs)).
  - apply ordered_NoDup_ids, sourceDocs_NoDup.
Qed.

Lemma filter_after_cursor {T} (P R : list (Snapshot T)) c :
  StronglySorted idBefore (P ++ R) →
  last P = Some c →
  filter (λ d, String.compare (doc_id d) (doc_id c) = Gt) (P ++ R) = R.
Proof.
  intros Hs Hl. rewrite filter_app.
  rewrite filter_none, filter_all; [done| |].
  - apply Forall_forall. intros d Hd.
    assert (idBefore c d) as Hcd.
    { eapply StronglySorted_app_1_elem_of; [exact Hs| |done].
      apply last_Some in Hl as [l' ->]. apply elem_of_app. right. by left. }
    unfold idBefore in Hcd.
    by rewrite (cmp_antisym _ string_compare_orderlike), Hcd.
  - apply Forall_forall. intros d Hd.
    apply StronglySorted_app_1_l in Hs.
    destruct (StronglySorted_last _ _ c d Hs Hl Hd) as [->|Hlt].
    + by rewrite (OrderLike_refl String.compare)
        by apply string_compare_orderlike.
    + unfold idBefore in Hlt. by rewrite Hlt.
Qed.

(** ** readPages over a query in document-identifier order *)

Section paging.
Variable fault : nat → option Error.
Hypothesis fault_free : ∀ n, fault n = None.
Variables (queryParams : list QueryConstraint) (size : positive).
Variable base : option Metadata.
Hypothesis by_identifier : byIdentifier queryParams = true.

Local Abbreviation pnext :=
  (readPages_next fault queryParams (Zpos size) base).

Lemma next_batch (P R : list (Snapshot DocumentData)) w :
  ordered (baseQuery queryParams) (sourceDocs w) = P ++ R →
  execute (pageQuery queryParams size ((λ d, VStr (doc_id d)) <$> last P))
    (sourceDocs w) = take (Pos.to_nat size) R.
Proof.
  intros HO. destruct (last P) as [c|] eqn:El; simpl.
  - rewrite execute_later_page, HO. f_equal.
    apply filter_after_cursor; [|done].
    rewrite <-HO. apply resultSet_strict.
  - apply last_None in El as ->. by rewrite execute_first_page, HO.
Qed.

Lemma drain_readPages_batches fuel (P R : list (Snapshot DocumentData)) st w :
  ordered (baseQuery queryParams) (sourceDocs w) = P ++ R →
  lastCursor st = last P →
  length R < fuel →
  ∃ w',
    drain pnext fuel st w =
      (pagesOf base (pageNumber st) (chunks (Pos.to_nat size) R),
       Completed, w')
    ∧ source w' = source w
    ∧ destination w' = destination w.
Proof.
  revert P R st w. induction fuel as [|fuel IH]; intros P R st w HO Hc Hfuel;
    [lia|]. simpl.
  pose proof (readPages_next_cases fault queryParams (Zpos size) base st w)
    as Hn.
  rewrite readPages_query_byIdentifier, fault_free, Hc in Hn by done.
  simpl in Hn. rewrite (next_batch P R w HO) in Hn. rewrite Hn. clear Hn.
  pose proof (Pos2Nat.is_pos size) as Hpos.
  destruct R as [|x R].
  { rewrite take_nil. eexists. by rewrite chunks_nil. }
  rewrite chunks_cons by (done || lia).
  destruct (take (Pos.to_nat size) (x :: R)) as [|y ys] eqn:Et.
  { apply take_nil_inv in Et as [?|?]; [lia|done]. }
  rewrite <-Et. clear y ys Et.
  set (batch := take (Pos.to_nat size) (x :: R)).
  assert (batch ≠ []) as Hne.
  { unfold batch. destruct (Pos.to_nat size); [lia|done]. }
  destruct (IH (P ++ batch) (drop (Pos.to_nat size) (x :: R))
              {| lastCursor := last batch; pageNumber := pageNumber st + 1 |}
              (record (ReadSource
                 (pageQuery queryParams size
                    ((λ d, VStr (doc_id d)) <$> last P)) (Ok batch)) w))
    as (w' & Hrun & Hsrc & Hdst).
  - unfold sourceDocs, record. simpl. fold (sourceDocs w).
    rewrite HO, <-app_assoc. f_equal. unfold batch. by rewrite take_drop.
  - simpl. rewrite last_app. destruct (last batch) eqn:El; [done|].
    by apply last_None in El.
  - rewrite length_drop. simpl in *. lia.
  - exists w'. rewrite Hrun. simpl. done.
Qed.

(** The pages of a complete traversal are the successive batches of the
    query's result set. *)
Lemma readPages_batches fuel w :
  length (resultSet queryParams w) < fuel →
  ∃ w',
    drain pnext fuel readPages w =
      (pagesOf base 1 (chunks (Pos.to_nat size) (resultSet queryParams w)),
       Completed, w')
    ∧ source w' = source w
    ∧ destination w' = destination w.
Proof.
  rewrite resultSet_byIdentifier by done. intros Hfuel.
  by apply (drain_readPages_batches fuel []).
Qed.
End paging.

(** ** Materializing without failures *)

Section materialize_reliable.
Variable fault : nat → option Error.
Variable autoId : nat → string.
Hypothesis fault_free : ∀ n, fault n = None.
Variables (queryParams : list QueryConstraint) (batchSize : Z).
Variable base : option Metadata.

(** With a store that fails no call, the materializer writes exactly the
    pages a consumer of [readPages] receives from the same source. *)
Lemma materializeLoop_drain fuel st wa wb pages o wa' :
  source wa = source wb →
  drain (readPages_next fault queryParams batchSize base) fuel st wa
    = (pages, o, wa') →
  ∃ wb',
    materializeLoop fault autoId queryParams batchSize base fuel st wb
      = (o, wb')
    ∧ source wb' = source wb
    ∧ doc_data <$> destination wb' = (doc_data <$> destination wb) ++ pages.
Proof.
  revert st wa wb pages o wa'.
  induction fuel as [|fuel IH]; intros st wa wb pages o wa' Hsrc; simpl.
  { intros [= <- <- <-]. exists wb. by rewrite app_nil_r. }
  pose proof (readPages_next_cases fault queryParams batchSize base st wa)
    as Ha.
  pose proof (readPages_next_cases fault queryParams batchSize base st wb)
    as Hb.
  destruct (readPages_query _ _ _) as [q|e].
  2:{ rewrite Ha, Hb. intros [= <- <- <-]. exists wb. by rewrite app_nil_r. }
  rewrite fault_free in Ha, Hb. simpl in Ha, Hb.
  assert (sourceDocs wa = sourceDocs wb) as Hdocs
    by (unfold sourceDocs; by rewrite Hsrc).
  rewrite Hdocs in Ha. rewrite Ha, Hb. clear Ha Hb.
  destruct (execute q (sourceDocs wb)) as [|d docs].
  { intros [= <- <- <-]. eexists. split; [done|]. simpl.
    by rewrite app_nil_r. }
  destruct (drain _ fuel _ _) as [[ys o'] w''] eqn:Ed.
  intros [= <- <- <-].
  rewrite savePage_pageOf, fault_free.
  match goal with
  | |- context [materializeLoop _ _ _ _ _ fuel ?s ?v] =>
      destruct (IH s (record (ReadSource q (Ok (d :: docs))) wa) v _ _ _
                  Hsrc Ed) as (wb' & Hloop & Hs' & Hd')
  end.
  exists wb'. split; [done|]. split; [done|].
  rewrite Hd'. simpl. rewrite fmap_app. simpl. by rewrite <-app_assoc.
Qed.
End materialize_reliable.

(** ** Cursors of successive batches *)

Lemma StronglySorted_weaken {A} (R1 R2 : relation A) l :
  (∀ x y, R1 x y → R2 x y) → StronglySorted R1 l → StronglySorted R2 l.
Proof.
  intros Himp. induction 1 as [|x l Hl IH Hx]; constructor; [done|].
  eapply Forall_impl; [exact Hx|]. by auto.
Qed.

Lemma StronglySorted_fmap_inv {A B} (f : A → B) (R : relation B) l :
  StronglySorted R (f <$> l) → StronglySorted (λ a b, R (f a) (f b)) l.
Proof.
  induction l as [|x l IH]; [constructor|].
  rewrite fmap_cons. intros Hs. apply StronglySorted_inv in Hs as [Hl Hx].
  constructor; [by apply IH|].
  rewrite Forall_forall in Hx. apply Forall_forall. intros y Hy.
  by apply Hx, list_elem_of_fmap_2.
Qed.

Lemma StronglySorted_trichotomy {A} (R : relation A) l x y :
  StronglySorted R l → x ∈ l → y ∈ l → x = y ∨ R x y ∨ R y x.
Proof.
  induction 1 as [|z l Hl IH Hz]; intros Hx Hy; [by apply elem_of_nil in Hx|].
  rewrite Forall_forall in Hz.
  apply elem_of_cons in Hx as [->|Hx], Hy as [->|Hy]; auto.
Qed.

Lemma pagesOf_cursor base k batches page :
  Forall (λ b, b ≠ []) batches →
  page ∈ pagesOf base k batches →
  ∃ b d, b ∈ batches ∧ last b = Some d ∧ cursor page = Some (doc_id d).
Proof.
  revert k. induction batches as [|b bs IH]; intros k Hne Hp; simpl in Hp.
  { by apply elem_of_nil in Hp. }
  apply Forall_cons in Hne as [Hb Hbs].
  apply elem_of_cons in Hp as [->|Hp].
  - destruct (last b) as [d|] eqn:El; [|by apply last_None in El].
    exists b, d. split; [by left|]. split; [done|]. simpl. by rewrite El.
  - destruct (IH _ Hbs Hp) as (b' & d & Hb' & Hl & Hc).
    exists b', d. split; [by right|done].
Qed.

Lemma pagesOf_cursors_increasing base k batches :
  Forall (λ b, b ≠ []) batches →
  StronglySorted idBefore (concat batches) →
  StronglySorted (λ a b, cursorBefore (cursor a) (cursor b))
    (pagesOf base k batches).
Proof.
  revert k. induction batches as [|b bs IH]; intros k Hne Hs; simpl;
    [constructor|].
  apply Forall_cons in Hne as [Hb Hbs]. simpl in Hs.
  constructor.
  - apply IH; [done|]. by apply StronglySorted_app_1_r in Hs.
  - apply Forall_forall. intros page Hp.
    destruct (pagesOf_cursor _ _ _ _ Hbs Hp) as (b' & d' & Hb' & Hl' & ->).
    destruct (last b) as [d|] eqn:El; [|by apply last_None in El].
    unfold cursorBefore. simpl. rewrite El. simpl.
    apply (StronglySorted_app_1_elem_of _ _ _ d d' Hs).
    + apply last_Some in El as [l' ->]. apply elem_of_app. right. by left.
    + apply list_elem_of_In, in_concat. exists b'.
      split; [by apply list_elem_of_In|]. apply list_elem_of_In.
      apply last_Some in Hl' as [l' ->]. apply elem_of_app. right. by left.
Qed.

Lemma pagesOf_length base k batches :
  length (pagesOf base k batches) = length batches.
Proof.
  revert k. induction batches as [|b bs IH]; intros k; simpl; [done|].
  by rewrite IH.
Qed.

Lemma pagesOf_data base k batches :
  data <$> pagesOf base k batches = (fmap doc_data) <$> batches.
Proof.
  revert k. induction batches as [|b bs IH]; intros k; simpl; [done|].
  by rewrite IH.
Qed.

(** ** Reading back a destination written in cursor order *)

Lemma execute_sorted_destination (dst : list (Snapshot PaginationData)) :
  StronglySorted
    (λ a b, cursorBefore (cursor (doc_data a)) (cursor (doc_data b))) dst →
  Forall (λ a, cursor (doc_data a) ≠ None) dst →
  execute (replayQuery None None) dst = dst.
Proof.
  intros Hs Hsome. rewrite execute_replay.
  assert (ordered (replayQuery None None) dst = dst) as ->.
  { unfold ordered. rewrite filter_all by (by apply Forall_forall).
    simpl.
    apply (StronglySorted_unique_strong
             (docLe (normalizedOrders [(["cursor"], Asc)]))).
    - intros x y Hx Hy Hxy Hyx.
      rewrite merge_sort_Permutation in Hx.
      destruct (StronglySorted_trichotomy _ _ x y Hs Hx Hy)
        as [->|[Hlt|Hlt]]; [done|exfalso..]; unfold cursorBefore in Hlt.
      + apply Hyx. simpl. rewrite !entry_cursor_key.
        by rewrite (cmp_antisym _ valueCompare_orderlike), Hlt.
      + apply Hxy. simpl. rewrite !entry_cursor_key.
        by rewrite (cmp_antisym _ valueCompare_orderlike), Hlt.
    - apply StronglySorted_merge_sort; apply _.
    - eapply StronglySorted_weaken; [|exact Hs].
      intros x y Hlt. unfold docLe, cursorBefore in *. simpl.
      by rewrite !entry_cursor_key, Hlt.
    - apply merge_sort_Permutation. }
  apply filter_all, Forall_forall. intros x Hx.
  apply afterBound_replay.
  eapply Forall_forall in Hsome; [|exact Hx].
  by destruct (cursor (doc_data x)).
Qed.

(** ** Materializing and reading back *)

Lemma chunks_length_le {A} (n : nat) (l : list A) :
  0 < n → length (chunks n l) ≤ length l.
Proof.
  intros Hn. rewrite chunks_length by done.
  destruct (length l) as [|len]; [by rewrite Nat.div_small by lia|].
  apply Nat.lt_succ_r, Nat.Div0.div_lt_upper_bound; nia.
Qed.

Section round_trip.
Variable fault : nat → option Error.
Variable autoId : nat → string.
Hypothesis fault_free : ∀ n, fault n = None.
Variables (queryParams : list QueryConstraint) (size : positive).
Variable base : option Metadata.
Hypothesis by_identifier : byIdentifier queryParams = true.

Lemma pages_cursors_increasing w :
  StronglySorted (λ a b, cursorBefore (cursor a) (cursor b))
    (pagesOf base 1 (chunks (Pos.to_nat size) (resultSet queryParams w))).
Proof.
  pose proof (Pos2Nat.is_pos size) as Hpos.
  apply pagesOf_cursors_increasing; [by apply chunks_nonempty|].
  rewrite chunks_concat, resultSet_byIdentifier by done.
  apply resultSet_strict.
Qed.

Lemma pages_cursors_defined w :
  Forall (λ p, cursor p ≠ None)
    (pagesOf base 1 (chunks (Pos.to_nat size) (resultSet queryParams w))).
Proof.
  pose proof (Pos2Nat.is_pos size) as Hpos.
  apply Forall_forall. intros page Hp.
  destruct (pagesOf_cursor _ _ _ _ (chunks_nonempty _ _ Hpos) Hp)
    as (b & d & _ & _ & ->).
  done.
Qed.

Lemma round_trip w fuel :
  destination w = [] →
  length (resultSet queryParams w) < fuel →
  let pages :=
    pagesOf base 1 (chunks (Pos.to_nat size) (resultSet queryParams w)) in
  ∃ w1 w2 w3,
    drain (readPages_next fault queryParams (Zpos size) base) fuel
      readPages w = (pages, Completed, w1)
    ∧ materializePaginationResults fault autoId queryParams (Zpos size)
        base fuel w = (Completed, w2)
    ∧ doc_data <$> destination w2 = pages
    ∧ drain (readMaterializedPages_next fault None) fuel
        readMaterializedPages w2
      = (replayed <$> pages, Completed, w3).
Proof.
  intros Hempty Hfuel pages.
  pose proof (Pos2Nat.is_pos size) as Hpos.
  destruct (readPages_batches fault fault_free queryParams size base
              by_identifier fuel w Hfuel) as (w1 & Hrun & _ & _).
  fold pages in Hrun.
  destruct (materializeLoop_drain fault autoId fault_free queryParams
              (Zpos size) base fuel readPages w w pages Completed w1
              eq_refl Hrun) as (w2 & Hloop & _ & Hdst).
  rewrite Hempty in Hdst. simpl in Hdst.
  assert (execute (replayQuery None None) (destination w2) = destination w2)
    as Hsnap.
  { apply execute_sorted_destination.
    - apply (StronglySorted_fmap_inv doc_data
               (λ a b, cursorBefore (cursor a) (cursor b))).
      rewrite Hdst. apply pages_cursors_increasing.
    - apply (Forall_fmap doc_data (λ p, cursor p ≠ None)).
      rewrite Hdst. apply pages_cursors_defined. }
  pose proof (replay_run fault None fault_free eq_refl w2 fuel) as Hback.
  simpl in Hback. rewrite Hsnap in Hback.
  exists w1, w2. eexists. split; [done|]. split; [done|]. split; [done|].
  rewrite Hback.
  - do 2 f_equal. rewrite <-Hdst, <-list_fmap_compose. done.
  - rewrite <-(length_fmap doc_data), Hdst. unfold pages.
    rewrite pagesOf_length.
    pose proof (chunks_length_le (Pos.to_nat size)
                  (resultSet queryParams w) Hpos). lia.
Qed.
End round_trip.

Lemma pagesOf_concat_data base k batches :
  concat (data <$> pagesOf base k batches) = doc_data <$> concat batches.
Proof.
  rewrite pagesOf_data. induction batches as [|b bs IH]; [done|].
  rewrite fmap_cons, !concat_cons, fmap_app. by f_equal.
Qed.

(** In ascending order of document identifier, asked for by an [orderBy]
    clause, the pages are as many as the batch size requires, each holds the next records of the result set, up to the
    batch size, and together they hold the result set in its order. *)
Lemma readPages_pages_in_identifier_order
    fault queryParams size base w fuel :
  (∀ n, fault n = None) →
  byIdentifier queryParams = true →
  length (resultSet queryParams w) < fuel →
  let n := Pos.to_nat size in
  let records := resultSet queryParams w in
  ∃ pages w',
    drain (readPages_next fault queryParams (Zpos size) base) fuel
      readPages w = (pages, Completed, w')
    ∧ length pages = (length records + n - 1) / n
    ∧ (∀ k page, pages !! k = Some page →
         data page = doc_data <$> take n (drop (k * n) records)
         ∧ length (data page) = min n (length records - k * n))
    ∧ concat (data <$> pages) = doc_data <$> records.
Proof.
  intros Hfree Hfilters Hfuel n records.
  pose proof (Pos2Nat.is_pos size) as Hpos.
  destruct (readPages_batches fault Hfree queryParams size base Hfilters
              fuel w Hfuel) as (w' & Hrun & _ & _).
  eexists _, w'. split; [exact Hrun|]. split; [|split].
  - by rewrite pagesOf_length, chunks_length.
  - intros k page Hk.
    apply (f_equal (fmap data)) in Hk. rewrite <-list_lookup_fmap in Hk.
    rewrite pagesOf_data, list_lookup_fmap, chunks_lookup in Hk by done.
    fold n records in Hk. case_decide; [|done]. simpl in Hk.
    injection Hk as <-. split; [done|].
    by rewrite length_fmap, length_take, length_drop.
  - by rewrite pagesOf_concat_data, chunks_concat.
Qed.

Lemma replayed_data (pages : list PaginationData) :
  page_data <$> (replayed <$> pages) = data <$> pages.
Proof. by rewrite <-list_fmap_compose. Qed.


(** C1, as amended.  For a query in ascending order of document
    identifier (equality filters and one ascending [orderBy] on the
    identifier), a positive batch size, optional metadata, a store that
    fails no call and a destination that is empty beforehand:
    materializing and then iterating
    [readMaterializedPages] over the destination, without a filter, yields
    one item per page that [readPages] yields from the same source, with
    the same data array and metadata and in the same order; the
    concatenated data of both is the query's result set. *)
Theorem materialize_then_read_back fault autoId queryParams size base w fuel :
  (∀ n, fault n = None) →
  byIdentifier queryParams = true →
  destination w = [] →
  length (resultSet queryParams w) < fuel →
  ∃ pages w1 w2 back w3,
    drain (readPages_next fault queryParams (Zpos size) base) fuel
      readPages w = (pages, Completed, w1)
    ∧ materializePaginationResults fault autoId queryParams (Zpos size) base
        fuel w = (Completed, w2)
    ∧ drain (readMaterializedPages_next fault None) fuel
        readMaterializedPages w2 = (back, Completed, w3)
    ∧ back = replayed <$> pages
    ∧ concat (page_data <$> back) = concat (data <$> pages)
    ∧ concat (data <$> pages) = doc_data <$> resultSet queryParams w.
Proof.
  intros Hfree Hfilters Hempty Hfuel.
  destruct (round_trip fault autoId Hfree queryParams size base Hfilters
              w fuel Hempty Hfuel) as (w1 & w2 & w3 & Hrun & Hmat & _ & Hback).
  eexists _, w1, w2, _, w3.
  split; [exact Hrun|]. split; [exact Hmat|]. split; [exact Hback|].
  split; [done|]. split; [by rewrite replayed_data|].
  rewrite pagesOf_concat_data, chunks_concat; [done|].
  apply Pos2Nat.is_pos.
Qed.



Lemma materialize_then_read_back_witness :
  (∀ n, reliable n = None)
  ∧ byIdentifier sortedById = true
  ∧ destination threeDocs = []
  ∧ length (resultSet sortedById threeDocs) < 10
  ∧ ∃ pages w1 w2 back w3,
      drain (readPages_next reliable sortedById 2 None) 10 readPages threeDocs
        = (pages, Completed, w1)
      ∧ length pages = 2
      ∧ materializePaginationResults reliable letterId sortedById 2 None 10
          threeDocs = (Completed, w2)
      ∧ drain (readMaterializedPages_next reliable None) 10
          readMaterializedPages w2 = (back, Completed, w3)
      ∧ back = replayed <$> pages
      ∧ concat (page_data <$> back) = concat (data <$> pages)
      ∧ concat (data <$> pages)
        = doc_data <$> resultSet sortedById threeDocs.
Proof.
  assert (length (resultSet sortedById threeDocs) < 10) as Hfuel
    by (vm_compute; lia).
  split; [reflexivity|]. split; [reflexivity|]. split; [reflexivity|].
  split; [exact Hfuel|].
  destruct (materialize_then_read_back reliable letterId sortedById 2 None
              threeDocs 10 (λ _, eq_refl) eq_refl eq_refl Hfuel)
    as (pages & w1 & w2 & back & w3 & Hrun & Hmat & Hback & Heq & Hc1 & Hc2).
  exists pages, w1, w2, back, w3. repeat split; try done.
  apply (f_equal (λ r, length r.1.1)) in Hrun. vm_compute in Hrun.
  exact (eq_sym Hrun).
Defined.

(** C1 fails as stated: under a sort constraint on a field the data read
    back comes in another order than [readPages] produced it, and a
    destination that already holds entries gives them back as well. *)
Lemma read_back_differs :
  (let pages :=
     drain (readPages_next reliable (sortedByT Asc) 1 None) 10
       readPages scrambled in
   let stored :=
     materializePaginationResults reliable letterId (sortedByT Asc) 1 None 10
       scrambled in
   let back :=
     drain (readMaterializedPages_next reliable None) 10
       readMaterializedPages stored.2 in
   pages.1.2 = Completed ∧ stored.1 = Completed ∧ back.1.2 = Completed
   ∧ concat (page_data <$> back.1.1) ≠ concat (data <$> pages.1.1))
  ∧ (let pages :=
       drain (readPages_next reliable sortedById 2 None) 10 readPages reused in
     let stored :=
       materializePaginationResults reliable letterId sortedById 2 None 10
         reused in
     let back :=
       drain (readMaterializedPages_next reliable None) 10
         readMaterializedPages stored.2 in
     pages.1.2 = Completed ∧ stored.1 = Completed ∧ back.1.2 = Completed
     ∧ length (concat (page_data <$> back.1.1))
       ≠ length (concat (data <$> pages.1.1))).
Proof.
  split.
  - split; [by vm_compute|]. split; [by vm_compute|]. split; [by vm_compute|].
    intros Heq. apply (f_equal (fmap (λ d : DocumentData, d !! "t"))) in Heq.
    vm_compute in Heq. discriminate.
  - split; [by vm_compute|]. split; [by vm_compute|]. split; [by vm_compute|].
    vm_compute. lia.
Qed.





(** ** readPages under an explicit sort constraint *)

Lemma readPages_descending_repeats fuel st w :
  source w = source threeDocs →
  lastCursor st = None ∨ lastCursor st = Some secondDoc →
  let run :=
    drain (readPages_next reliable (sortedByT Desc) 2 None) fuel st w in
  run.1.2 = OutOfFuel
  ∧ data <$> run.1.1 = replicate fuel [{["t" := VNum 3]}; {["t" := VNum 2]}].
Proof.
  revert st w. induction fuel as [|fuel IH]; intros st w Hsrc Hst; [done|].
  simpl.
  pose proof (readPages_next_cases reliable (sortedByT Desc) 2 None st w)
    as Hn.
  assert (sourceDocs w = sourceDocs threeDocs) as Hdocs
    by (unfold sourceDocs; by rewrite Hsrc).
  rewrite Hdocs in Hn.
  destruct (readPages_query (sortedByT Desc) 2 (lastCursor st))
    as [q|e] eqn:Hq;
    [|destruct Hst as [Hst|Hst]; rewrite Hst in Hq; by vm_compute in Hq].
  assert (execute q (sourceDocs threeDocs)
          = [{| doc_id := "c"; doc_data := {["t" := VNum 3]} |}; secondDoc])
    as Hex.
  { destruct Hst as [Hst|Hst]; rewrite Hst in Hq; vm_compute in Hq;
      injection Hq as <-; by vm_compute. }
  simpl in Hn. rewrite Hex in Hn. rewrite Hn. clear Hn.
  match goal with
  | |- context [drain ?n fuel ?s ?v] =>
      destruct (IH s v Hsrc (or_intror eq_refl)) as [Ho Hd];
      destruct (drain n fuel s v) as [[ys o] w'']
  end.
  simpl in *. split; [done|]. f_equal. exact Hd.
Qed.

(** C3.  What the code does under an explicit sort constraint.  The
    source holds three records; sorted by their field [t], the query has
    all three as its result set.  With batch size 1 and ascending order,
    [readPages] yields a single page and ends, where three pages of one
    record are due: the identifier of the last document, a string, is
    passed as the position to start after in the order of [t], and no
    number lies after a string.  With descending order every number lies
    after that string, and each query returns the first batch again: the
    generator never ends, however long the consumer goes on. *)
Theorem readPages_explicit_order_pages :
  doc_data <$> resultSet (sortedByT Asc) threeDocs
    = [{["t" := VNum 1]}; {["t" := VNum 2]}; {["t" := VNum 3]}]
  ∧ (let run :=
       drain (readPages_next reliable (sortedByT Asc) 1 None) 10
         readPages threeDocs in
     data <$> run.1.1 = [[{["t" := VNum 1]}]] ∧ run.1.2 = Completed)
  ∧ (∀ fuel,
       let run :=
         drain (readPages_next reliable (sortedByT Desc) 2 None) fuel
           readPages threeDocs in
       run.1.2 = OutOfFuel
       ∧ data <$> run.1.1
         = replicate fuel [{["t" := VNum 3]}; {["t" := VNum 2]}]).
Proof.
  split; [by vm_compute|]. split; [split; by vm_compute|].
  intros fuel. apply readPages_descending_repeats; [done|by left].
Qed.

(** ** An empty result set *)

Lemma drain_readPages_nonempty fault queryParams batchSize base fuel st w :
  Forall (λ p, data p ≠ [])
    (drain (readPages_next fault queryParams batchSize base) fuel st w).1.1.
Proof.
  revert st w. induction fuel as [|fuel IH]; intros st w; simpl;
    [constructor|].
  pose proof (readPages_next_cases fault queryParams batchSize base st w)
    as Hn.
  destruct (readPages_query _ _ _) as [q|e]; [|rewrite Hn; constructor].
  destruct (fault _) as [e|]; [rewrite Hn; constructor|].
  simpl in Hn. rewrite Hn. clear Hn.
  destruct (execute q (sourceDocs w)) as [|d docs]; [constructor|].
  match goal with
  | |- context [drain ?n fuel ?s ?v] =>
      specialize (IH s v); destruct (drain n fuel s v) as [[ys o] w'']
  end.
  by constructor.
Qed.

Lemma readPages_query_limit queryParams size q0 :
  query collectionQuery queryParams = Ok q0 →
  readPages_query queryParams (Zpos size) None =
    Ok {| filters := filters q0; explicitOrders := explicitOrders q0;
          limitTo := Some size; bound := bound q0 |}.
Proof.
  intros Hq. unfold readPages_query. simpl. by rewrite query_app, Hq.
Qed.

Lemma execute_limit_of_empty `{Document D} q0 size (docs : list D) :
  execute q0 docs = [] →
  execute {| filters := filters q0; explicitOrders := explicitOrders q0;
             limitTo := Some size; bound := bound q0 |} docs = [].
Proof.
  unfold execute, truncate. simpl. intros Hnone.
  assert (filter (λ d, afterBound q0 d = true) (ordered q0 docs) = [])
    as Hfound.
  { destruct (limitTo q0) as [n|]; [|done].
    apply take_nil_inv in Hnone as [Hn|Hn]; [|done].
    pose proof (Pos2Nat.is_pos n). lia. }
  rewrite (list_filter_iff _ (λ d, afterBound q0 d = true)) by done.
  assert (ordered {| filters := filters q0;
                     explicitOrders := explicitOrders q0;
                     limitTo := Some size; bound := bound q0 |} docs
          = ordered q0 docs) as -> by done.
  rewrite Hfound. apply take_nil.
Qed.

(** C7. When the source query matches no record and the store fails no
    call, [readPages] ends at its first query without yielding a page;
    [materializePaginationResults] makes that one read and no write, and
    leaves the destination as it was; and [readMaterializedPages] over a
    destination that is empty besides yields no entry.  Whatever the
    source holds, no page [readPages] yields has an empty data array. *)
Theorem empty_result_set fault autoId queryParams size base q0 w fuel :
  (∀ n, fault n = None) →
  query collectionQuery queryParams = Ok q0 →
  resultSet queryParams w = [] →
  (∃ q w',
     w' = record (ReadSource q (Ok [])) w
     ∧ drain (readPages_next fault queryParams (Zpos size) base) (S fuel)
         readPages w = ([], Completed, w')
     ∧ materializePaginationResults fault autoId queryParams (Zpos size)
         base (S fuel) w = (Completed, w')
     ∧ destination w' = destination w
     ∧ filter (λ c, isWrite c = true) (journal w')
       = filter (λ c, isWrite c = true) (journal w)
     ∧ ∀ metadataFilter,
         validFilter metadataFilter = true →
         destination w = [] →
         (drain (readMaterializedPages_next fault metadataFilter) (S fuel)
            readMaterializedPages w').1 = ([], Completed))
  ∧ ∀ fuel' st' w',
      Forall (λ p, data p ≠ [])
        (drain (readPages_next fault queryParams (Zpos size) base)
           fuel' st' w').1.1.
Proof.
  intros Hfree Hq Hnone. split; [|intros; apply drain_readPages_nonempty].
  pose proof (readPages_query_limit queryParams size q0 Hq) as Hquery.
  set (q := {| filters := filters q0; explicitOrders := explicitOrders q0;
               limitTo := Some size; bound := bound q0 |}) in *.
  assert (execute q (sourceDocs w) = []) as Hex.
  { apply execute_limit_of_empty. unfold resultSet in Hnone.
    by rewrite Hq in Hnone. }
  pose proof (readPages_next_cases fault queryParams (Zpos size) base
                readPages w) as Hn.
  simpl in Hn. rewrite Hquery, Hfree in Hn. simpl in Hn. rewrite Hex in Hn.
  exists q, (record (ReadSource q (Ok [])) w).
  split; [done|]. split; [by simpl; rewrite Hn|].
  split; [by unfold materializePaginationResults; simpl; rewrite Hn|].
  split; [done|]. split.
  { simpl. rewrite filter_app. simpl. by rewrite app_nil_r. }
  intros metadataFilter Hvalid Hempty.
  rewrite (replay_run fault metadataFilter Hfree Hvalid); simpl;
    rewrite Hempty; [done|simpl; lia].
Qed.

Lemma empty_result_set_witness :
  (∀ n, reliable n = None)
  ∧ query collectionQuery publishedOnly
    = Ok {| filters := [(["status"], VStr "published")];
            explicitOrders := []; limitTo := None; bound := None |}
  ∧ resultSet publishedOnly threeDocs = []
  ∧ ∃ q w',
      drain (readPages_next reliable publishedOnly 10 None) 1
        readPages threeDocs = ([], Completed, w')
      ∧ materializePaginationResults reliable letterId publishedOnly 10 None
          1 threeDocs = (Completed, w')
      ∧ journal w' = [ReadSource q (Ok [])]
      ∧ destination w' = [].
Proof.
  assert (query collectionQuery publishedOnly
          = Ok {| filters := [(["status"], VStr "published")];
                  explicitOrders := []; limitTo := None; bound := None |})
    as Hq by reflexivity.
  assert (resultSet publishedOnly threeDocs = []) as Hnone by (by vm_compute).
  split; [reflexivity|]. split; [exact Hq|]. split; [exact Hnone|].
  destruct (empty_result_set reliable letterId publishedOnly 10 None _
              threeDocs 0 (λ _, eq_refl) Hq Hnone)
    as [(q & w' & -> & Hrun & Hmat & Hdst & _) _].
  exists q, (record (ReadSource q (Ok [])) threeDocs).
  split; [exact Hrun|]. split; [exact Hmat|]. split; reflexivity.
Defined.

(** * Further properties of the package *)

(** ** readPages: what a traversal does to the store *)

Lemma readPages_query_shape queryParams batchSize c q :
  readPages_query queryParams batchSize c = Ok q →
  ∃ size q0,
    batchSize = Zpos size
    ∧ query collectionQuery queryParams = Ok q0
    ∧ filters q = filters q0
    ∧ explicitOrders q = explicitOrders q0
    ∧ limitTo q = Some size.
Proof.
  unfold readPages_query. destruct batchSize as [|size|size]; try done.
  simpl. rewrite query_app.
  destruct (query collectionQuery queryParams) as [q0|e]; [|done]. simpl.
  destruct c as [c|]; simpl.
  - destruct (validBound _ _); [|done]. intros [= <-]. by eexists _, _.
  - intros [= <-]. by eexists _, _.
Qed.

Lemma query_accumulates_filters q cs q' :
  query q cs = Ok q' → filters q' = filters q ++ pairsOf cs.
Proof.
  revert q. induction cs as [|c cs IH]; intros q; simpl.
  - intros [= <-]. by rewrite app_nil_r.
  - destruct (applyConstraint q c) as [q1|e] eqn:Ec; [|done].
    intros Hq. rewrite (IH _ Hq).
    destruct c; simpl in Ec.
    + injection Ec as <-. simpl. by rewrite <-app_assoc.
    + destruct (bound q); [done|]. by injection Ec as <-.
    + by injection Ec as <-.
    + destruct (validBound _ _); [|done]. by injection Ec as <-.
Qed.

Lemma execute_within_limit `{Document D} q n (docs : list D) :
  limitTo q = Some n → length (execute q docs) ≤ Pos.to_nat n.
Proof.
  intros Hl. unfold execute, truncate. rewrite Hl, length_take. lia.
Qed.

Lemma execute_elem_of `{Document D} q (docs : list D) d :
  d ∈ execute q docs → d ∈ docs ∧ matchesFilters q d = true.
Proof.
  unfold execute, truncate. intros Hd.
  assert (d ∈ filter (λ d, afterBound q d = true) (ordered q docs)) as Hd'.
  { destruct (limitTo q) as [n|]; [|done].
    rewrite <-(take_drop (Pos.to_nat n)). apply elem_of_app. by left. }
  apply list_elem_of_filter in Hd' as [_ Hd'].
  apply ordered_elem_of in Hd'. tauto.
Qed.

Lemma elem_of_sourceDocs w d :
  d ∈ sourceDocs w ↔ source w !! doc_id d = Some (doc_data d).
Proof.
  unfold sourceDocs. rewrite list_elem_of_fmap. split.
  - intros ([i x] & -> & Hix). by apply elem_of_map_to_list in Hix.
  - intros Hd. exists (doc_id d, doc_data d). split; [by destruct d|].
    by apply elem_of_map_to_list.
Qed.

Section traversal.
Variable fault : nat → option Error.
Variables (queryParams : list QueryConstraint) (batchSize : Z).
Variable base : option Metadata.

Local Abbreviation tnext :=
  (readPages_next fault queryParams batchSize base).

Lemma drain_readPages_calls fuel st w pages o w' :
  drain tnext fuel st w = (pages, o, w') →
  ∃ calls,
    journal w' = journal w ++ calls
    ∧ source w' = source w
    ∧ destination w' = destination w
    ∧ Forall (λ c, isSourceRead c = true) calls
    ∧ match o with
      | Completed => length calls = S (length pages)
      | Aborted e =>
          (length calls = S (length pages)
           ∧ ∃ c, last calls = Some c ∧ failure c = Some e)
          ∨ (length calls = length pages
             ∧ Forall (λ c, succeeded c = true) calls
             ∧ readPages_query queryParams batchSize
                 (cursorAfter (lastCursor st) calls) = Err e)
      | OutOfFuel => length calls = length pages
      end.
Proof.
  revert st w pages o w'.
  induction fuel as [|fuel IH]; intros st w pages o w'; simpl.
  { intros [= <- <- <-]. exists []. by rewrite app_nil_r. }
  pose proof (readPages_next_cases fault queryParams batchSize base st w)
    as Hn.
  destruct (readPages_query queryParams batchSize (lastCursor st))
    as [q|e0] eqn:Hq.
  2:{ rewrite Hn. intros [= <- <- <-]. exists []. rewrite app_nil_r.
      repeat split; try done. right. by repeat split. }
  destruct (fault (length (journal w))) as [e|].
  { rewrite Hn. intros [= <- <- <-]. exists [ReadSource q (Err e)].
    repeat split; try done; [by repeat constructor|].
    left. split; [done|]. by eexists. }
  simpl in Hn. rewrite Hn. clear Hn.
  destruct (execute q (sourceDocs w)) as [|d docs].
  { intros [= <- <- <-]. exists [ReadSource q (Ok [])].
    repeat split; try done. by repeat constructor. }
  destruct (drain tnext fuel _ _) as [[ys o'] w''] eqn:Ed.
  intros [= <- <- <-].
  apply IH in Ed as (calls & Hj & Hs & Hd & Hall & Ho).
  exists (ReadSource q (Ok (d :: docs)) :: calls).
  split; [by rewrite Hj; simpl; rewrite <-app_assoc|].
  split; [done|]. split; [done|]. split; [by constructor|].
  destruct o' as [|e|]; simpl.
  - by rewrite Ho.
  - destruct Ho as [(Hlen & c & Hl & Hc)|(Hlen & Hok & Hbuild)].
    + left. split; [by rewrite Hlen|]. exists c. by rewrite last_cons, Hl.
    + right. split; [by rewrite Hlen|]. split; [by constructor|done].
  - by rewrite Ho.
Qed.

(** X1. A traversal by [readPages] only reads the source: whatever the
    query, the failures of the store and the point at which the consumer
    stops, it leaves the source and the destination as they were, and
    every call it makes is a read of the source.  A traversal that ends
    normally or on a failing read has made exactly one call more than it
    yielded pages (the read that came back empty, or the read that
    failed).  One that is still running has made one call per page, and
    so has one that ends because the query of its next page (or of its
    first page) cannot be built: all its calls succeeded, and the error
    is that of the query after the last document read. *)
Theorem readPages_reads_only fuel w pages o w' :
  drain tnext fuel readPages w = (pages, o, w') →
  ∃ calls,
    journal w' = journal w ++ calls
    ∧ source w' = source w
    ∧ destination w' = destination w
    ∧ Forall (λ c, isSourceRead c = true) calls
    ∧ match o with
      | Completed => length calls = S (length pages)
      | Aborted e =>
          (length calls = S (length pages)
           ∧ ∃ c, last calls = Some c ∧ failure c = Some e)
          ∨ (length calls = length pages
             ∧ Forall (λ c, succeeded c = true) calls
             ∧ readPages_query queryParams batchSize (cursorAfter None calls)
               = Err e)
      | OutOfFuel => length calls = length pages
      end.
Proof. apply drain_readPages_calls. Qed.

Lemma drain_readPages_pages fuel st w page :
  page ∈ (drain tnext fuel st w).1.1 →
  ∃ size docs,
    batchSize = Zpos size
    ∧ docs ≠ []
    ∧ length docs ≤ Pos.to_nat size
    ∧ data page = doc_data <$> docs
    ∧ cursor page = doc_id <$> last docs
    ∧ Forall (λ d, source w !! doc_id d = Some (doc_data d)
                   ∧ ∀ p v, FieldFilter p v ∈ queryParams →
                       fieldOf d p = Some v) docs.
Proof.
  revert st w. induction fuel as [|fuel IH]; intros st w; simpl.
  { intros Hp. by apply elem_of_nil in Hp. }
  pose proof (readPages_next_cases fault queryParams batchSize base st w)
    as Hn.
  destruct (readPages_query _ _ _) as [q|e] eqn:Hq;
    [|rewrite Hn; intros Hp; by apply elem_of_nil in Hp].
  destruct (fault _) as [e|];
    [rewrite Hn; intros Hp; by apply elem_of_nil in Hp|].
  simpl in Hn. rewrite Hn. clear Hn.
  destruct (execute q (sourceDocs w)) as [|d docs] eqn:Ex;
    [intros Hp; by apply elem_of_nil in Hp|].
  destruct (drain tnext fuel _ _) as [[ys o] w''] eqn:Ed. simpl.
  intros Hp. apply elem_of_cons in Hp as [->|Hp].
  - destruct (readPages_query_shape _ _ _ _ Hq)
      as (size & q0 & HB & Hq0 & Hf & _ & Hl).
    exists size, (d :: docs). split; [done|]. split; [done|].
    split; [rewrite <-Ex; by apply execute_within_limit|].
    split; [done|]. split; [done|].
    apply Forall_forall. intros x Hx. rewrite <-Ex in Hx.
    apply execute_elem_of in Hx as [Hsrc Hm]. split.
    + by apply elem_of_sourceDocs.
    + intros p v Hpv. unfold matchesFilters in Hm.
      rewrite forallb_forall in Hm.
      specialize (Hm (p, v)). simpl in Hm.
      apply bool_decide_eq_true in Hm; [done|].
      apply list_elem_of_In. rewrite Hf.
      rewrite (query_accumulates_filters _ _ _ Hq0). simpl.
      unfold pairsOf. apply list_elem_of_omap.
      exists (FieldFilter p v). by split.
  - specialize (IH {| lastCursor := last (d :: docs);
                      pageNumber := pageNumber st + 1 |}
                   (record (ReadSource q (Ok (d :: docs))) w)).
    rewrite Ed in IH. by apply IH.
Qed.

(** X2. Every page [readPages] yields, under any query and whatever the
    store does, holds at least one record and at most [batchSize]; its
    records are records of the source that carry every equality filter
    of the query, and its cursor is the identifier of the last of them,
    never null. *)
Theorem readPages_page_bounds fuel w page :
  page ∈ (drain tnext fuel readPages w).1.1 →
  (0 < length (data page) ≤ Z.to_nat batchSize)
  ∧ ∃ docs last_doc,
      data page = doc_data <$> docs
      ∧ last docs = Some last_doc
      ∧ cursor page = Some (doc_id last_doc)
      ∧ Forall (λ d, source w !! doc_id d = Some (doc_data d)
                     ∧ ∀ p v, FieldFilter p v ∈ queryParams →
                         fieldOf d p = Some v) docs.
Proof.
  intros Hp.
  destruct (drain_readPages_pages fuel readPages w page Hp)
    as (size & docs & -> & Hne & Hlen & Hdata & Hcur & Hall).
  split.
  - rewrite Hdata, length_fmap. simpl. split; [|lia].
    destruct docs; [done|simpl; lia].
  - destruct (last docs) as [x|] eqn:El; [|by apply last_None in El].
    by exists docs, x.
Qed.
End traversal.

(** ** A batch size that is not positive *)

(** X3. With a batch size that is zero or negative, [limit] refuses the
    constraint: [readPages] throws at its first resumption, before any
    call to the store, and [materializePaginationResults] aborts with
    that error and leaves the world as it was. *)
Theorem nonpositive_batchSize_throws
    fault autoId queryParams batchSize base fuel w :
  (batchSize ≤ 0)%Z →
  drain (readPages_next fault queryParams batchSize base) (S fuel)
    readPages w = ([], Aborted InvalidArgument, w)
  ∧ materializePaginationResults fault autoId queryParams batchSize base
      (S fuel) w = (Aborted InvalidArgument, w).
Proof.
  intros HB.
  pose proof (readPages_next_cases fault queryParams batchSize base
                readPages w) as Hn.
  assert (readPages_query queryParams batchSize (lastCursor readPages)
          = Err InvalidArgument) as Hq.
  { unfold readPages_query. destruct batchSize; [done|lia|done]. }
  rewrite Hq in Hn.
  unfold materializePaginationResults. simpl. by rewrite Hn.
Qed.

Lemma nonpositive_batchSize_throws_witness :
  (0 ≤ 0)%Z
  ∧ drain (readPages_next reliable [] 0 None) 1 readPages threeDocs
    = ([], Aborted InvalidArgument, threeDocs)
  ∧ materializePaginationResults reliable letterId [] 0 None 1 threeDocs
    = (Aborted InvalidArgument, threeDocs).
Proof.
  split; [lia|].
  apply (nonpositive_batchSize_throws reliable letterId [] 0 None 0 threeDocs).
  lia.
Defined.

(** ** What the materializer stores *)

(** X5. With a store that fails no call, and whatever the query,
    [materializePaginationResults] ends as a traversal by [readPages]
    over the same source ends, and appends to the destination exactly
    the pages that traversal yields, in their order; the entries already
    in the destination and the source are kept. *)
Theorem materialize_stores_pages
    fault autoId queryParams batchSize base fuel w pages o w1 :
  (∀ n, fault n = None) →
  drain (readPages_next fault queryParams batchSize base) fuel readPages w
    = (pages, o, w1) →
  ∃ w2 new,
    materializePaginationResults fault autoId queryParams batchSize base
      fuel w = (o, w2)
    ∧ source w2 = source w
    ∧ destination w2 = destination w ++ new
    ∧ doc_data <$> new = pages.
Proof.
  intros Hfree Hrun.
  destruct (materializeLoop_drain fault autoId Hfree queryParams batchSize
              base fuel readPages w w pages o w1 eq_refl Hrun)
    as (w2 & Hloop & Hsrc & Hdst).
  destruct (materializeLoop_calls fault autoId queryParams batchSize base
              fuel readPages w o w2 Hloop) as (calls & _ & _ & Hd & _).
  exists w2, (written calls). split; [done|]. split; [done|].
  split; [done|].
  rewrite Hd, fmap_app in Hdst. by apply app_inv_head in Hdst.
Qed.

Lemma materialize_stores_pages_witness :
  let run := drain (readPages_next reliable (sortedByT Asc) 1 None) 10
               readPages scrambled in
  (∀ n, reliable n = None)
  ∧ run = (run.1.1, Completed, run.2)
  ∧ ∃ w2 new,
      materializePaginationResults reliable letterId (sortedByT Asc) 1 None
        10 scrambled = (Completed, w2)
      ∧ destination w2 = destination scrambled ++ new
      ∧ doc_data <$> new = run.1.1.
Proof.
  intros run.
  assert (run = (run.1.1, Completed, run.2)) as Hrun
    by (vm_compute; reflexivity).
  split; [reflexivity|]. split; [exact Hrun|].
  destruct (materialize_stores_pages reliable letterId (sortedByT Asc) 1
              None 10 scrambled run.1.1 Completed run.2 (λ _, eq_refl) Hrun)
    as (w2 & new & Hmat & _ & Hdst & Hnew).
  by exists w2, new.
Defined.

Lemma Sequential_written queryParams batchSize base docs st calls :
  Sequential queryParams batchSize base docs st calls →
  ∀ i e, written calls !! i = Some e →
    ∃ found,
      found ≠ []
      ∧ doc_data e = pageOf base (pageNumber st + Z.of_nat i) found.
Proof.
  induction 1 as [st|st q Hq Hex|st q err Hq|st q err Hq Hne
                  |st q i' rest Hq Hne Hs IH];
    intros i e; simpl; try done.
  destruct i as [|i]; simpl.
  - intros [= <-]. exists (execute q docs). split; [done|]. simpl.
    by rewrite Z.add_0_r.
  - intros Hi. destruct (IH i e Hi) as (found & Hne' & ->).
    exists found. split; [done|]. simpl. f_equal. lia.
Qed.

(** X6. Whatever the store does, the entries one run of
    [materializePaginationResults] adds to the destination are numbered
    1, 2, 3, ... in the order they are written, without a gap, also when
    the run aborts; none of them has an empty data array or a null
    cursor, and the entries that were there before are kept in front. *)
Theorem materialized_entries_numbered
    fault autoId queryParams batchSize base fuel w o w' :
  materializePaginationResults fault autoId queryParams batchSize base
    fuel w = (o, w') →
  ∃ new,
    destination w' = destination w ++ new
    ∧ ∀ i e, new !! i = Some e →
        metadata (doc_data e) = Some (pageMetadata base (Z.of_nat i + 1))
        ∧ (metadata (doc_data e) ≫= (.!! "pageNumber"))
          = Some (VNum (Z.of_nat i + 1))
        ∧ data (doc_data e) ≠ []
        ∧ cursor (doc_data e) ≠ None.
Proof.
  unfold materializePaginationResults. intros Hloop.
  destruct (materializeLoop_calls fault autoId queryParams batchSize base
              fuel readPages w o w' Hloop) as (calls & _ & Hs & Hd & _).
  exists (written calls). split; [done|]. intros i e Hi.
  destruct (Sequential_written _ _ _ _ _ calls Hs i e Hi)
    as (docs & Hne & ->). simpl.
  replace (1 + Z.of_nat i)%Z with (Z.of_nat i + 1)%Z by lia.
  split; [done|]. split.
  - destruct base; simpl; [apply lookup_insert_eq|].
    apply lookup_singleton_eq.
  - split; [by destruct docs|].
    destruct (last docs) eqn:El; [done|]. by apply last_None in El.
Qed.

Lemma materialized_entries_numbered_witness :
  let run :=
    materializePaginationResults (failingAt 5 (StoreFailure 7)) letterId
      sortedById 1 None 10 threeDocs in
  run = (Aborted (StoreFailure 7), run.2)
  ∧ ∃ new,
      destination run.2 = destination threeDocs ++ new
      ∧ length new = 2
      ∧ ∀ i e, new !! i = Some e →
          (metadata (doc_data e) ≫= (.!! "pageNumber"))
          = Some (VNum (Z.of_nat i + 1)).
Proof.
  intros run.
  assert (run = (Aborted (StoreFailure 7), run.2)) as Hrun
    by (vm_compute; reflexivity).
  split; [exact Hrun|].
  destruct (materialized_entries_numbered (failingAt 5 (StoreFailure 7))
              letterId sortedById 1 None 10 threeDocs _ _ Hrun)
    as (new & Hd & Hall).
  exists new. split; [exact Hd|]. split.
  - assert (length (destination run.2) = 2) as Hlen
      by (vm_compute; reflexivity).
    rewrite Hd, length_app in Hlen. simpl in Hlen. lia.
  - intros i e Hi. by apply Hall.
Defined.

(** ** A materialization that is cut short or repeated *)

Section partial.
Variable fault : nat → option Error.
Variable autoId : nat → string.
Variables (queryParams : list QueryConstraint) (size : positive).
Variable base : option Metadata.
Hypothesis by_identifier : byIdentifier queryParams = true.

Lemma materializeLoop_prefix fuel (P R : list (Snapshot DocumentData))
    st w o w' :
  ordered (baseQuery queryParams) (sourceDocs w) = P ++ R →
  lastCursor st = last P →
  materializeLoop fault autoId queryParams (Zpos size) base fuel st w
    = (o, w') →
  ∃ j,
    doc_data <$> destination w'
    = (doc_data <$> destination w)
      ++ take j (pagesOf base (pageNumber st) (chunks (Pos.to_nat size) R))
    ∧ (o = Completed → length (chunks (Pos.to_nat size) R) ≤ j).
Proof.
  revert P R st w. induction fuel as [|fuel IH]; intros P R st w HO Hc; simpl.
  { intros [= <- <-]. exists 0. by rewrite take_0, app_nil_r. }
  pose proof (readPages_next_cases fault queryParams (Zpos size) base st w)
    as Hn.
  rewrite readPages_query_byIdentifier, Hc in Hn by done.
  destruct (fault (length (journal w))) as [e|].
  { rewrite Hn. intros [= <- <-]. exists 0. by rewrite take_0, app_nil_r. }
  simpl in Hn. rewrite (next_batch queryParams size P R w HO) in Hn.
  rewrite Hn. clear Hn.
  pose proof (Pos2Nat.is_pos size) as Hpos.
  destruct R as [|x R].
  { rewrite take_nil. intros [= <- <-]. exists 0.
    rewrite chunks_nil. simpl. by rewrite app_nil_r. }
  rewrite chunks_cons by (done || lia).
  destruct (take (Pos.to_nat size) (x :: R)) as [|y ys] eqn:Et.
  { apply take_nil_inv in Et as [?|?]; [lia|done]. }
  rewrite <-Et. clear y ys Et.
  set (batch := take (Pos.to_nat size) (x :: R)).
  assert (batch ≠ []) as Hne.
  { unfold batch. destruct (Pos.to_nat size); [lia|done]. }
  set (w1 := record _ w).
  rewrite savePage_pageOf.
  destruct (fault (length (journal w1))) as [e|].
  { intros [= <- <-]. exists 0. by rewrite take_0, app_nil_r. }
  intros Hloop.
  apply (IH (P ++ batch) (drop (Pos.to_nat size) (x :: R))) in Hloop
    as (j & Hd & Ho).
  - exists (S j). simpl in *. split; [|intros Hc'; specialize (Ho Hc'); lia].
    rewrite Hd, fmap_app. simpl. by rewrite <-app_assoc.
  - unfold sourceDocs. simpl. fold (sourceDocs w).
    rewrite HO, <-app_assoc. f_equal. unfold batch. by rewrite take_drop.
  - simpl. rewrite last_app. destruct (last batch) eqn:El; [done|].
    by apply last_None in El.
Qed.

(** X7. For a query in ascending order of document identifier (equality
    filters and one ascending [orderBy] on the identifier), whatever
    calls the store fails and however early the run stops,
    [materializePaginationResults] appends to the destination a
    prefix of the pages of a complete traversal: the pages written are
    the first ones, whole and in order, and none is skipped.  A run that
    completes has written them all. *)
Theorem partial_materialization_is_a_prefix fuel w o w' :
  materializePaginationResults fault autoId queryParams (Zpos size) base
    fuel w = (o, w') →
  let pages :=
    pagesOf base 1 (chunks (Pos.to_nat size) (resultSet queryParams w)) in
  ∃ j,
    doc_data <$> destination w'
    = (doc_data <$> destination w) ++ take j pages
    ∧ (o = Completed → take j pages = pages).
Proof.
  intros Hmat pages.
  destruct (materializeLoop_prefix fuel [] (resultSet queryParams w)
              readPages w o w') as (j & Hd & Ho); [|done|done|].
  { by rewrite resultSet_byIdentifier. }
  exists j. split; [done|]. intros Hc. apply take_ge.
  unfold pages. rewrite pagesOf_length. by apply Ho.
Qed.
End partial.

Lemma partial_materialization_is_a_prefix_witness :
  let run :=
    materializePaginationResults (failingAt 3 (StoreFailure 7)) letterId
      sortedById 1 None 10 threeDocs in
  byIdentifier sortedById = true
  ∧ run = (Aborted (StoreFailure 7), run.2)
  ∧ length (destination run.2) = 1
  ∧ ∃ j,
      doc_data <$> destination run.2
      = (doc_data <$> destination threeDocs)
        ++ take j (pagesOf None 1
                     (chunks 1 (resultSet sortedById threeDocs))).
Proof.
  intros run.
  assert (run = (Aborted (StoreFailure 7), run.2)) as Hrun
    by (vm_compute; reflexivity).
  split; [reflexivity|]. split; [exact Hrun|].
  split; [vm_compute; reflexivity|].
  destruct (partial_materialization_is_a_prefix
              (failingAt 3 (StoreFailure 7)) letterId sortedById 1 None
              eq_refl 10 threeDocs _ _ Hrun) as (j & Hd & _).
  by exists j.
Defined.

(** X8. [materializePaginationResults] is not idempotent.  With a store
    that fails no call, a second run with the same query over the same
    source ends as the first did and appends the same pages once more:
    the destination then holds every page twice. *)
Theorem materialize_twice_duplicates
    fault autoId queryParams batchSize base fuel w o w1 :
  (∀ n, fault n = None) →
  materializePaginationResults fault autoId queryParams batchSize base
    fuel w = (o, w1) →
  ∃ pages w2,
    doc_data <$> destination w1 = (doc_data <$> destination w) ++ pages
    ∧ materializePaginationResults fault autoId queryParams batchSize base
        fuel w1 = (o, w2)
    ∧ doc_data <$> destination w2
      = (doc_data <$> destination w) ++ pages ++ pages.
Proof.
  intros Hfree Hmat.
  destruct (drain (readPages_next fault queryParams batchSize base) fuel
              readPages w) as [[pages o'] w0] eqn:Hrun.
  destruct (materializeLoop_drain fault autoId Hfree queryParams batchSize
              base fuel readPages w w pages o' w0 eq_refl Hrun)
    as (w1' & Hloop & Hsrc & Hdst).
  unfold materializePaginationResults in Hmat. rewrite Hloop in Hmat.
  injection Hmat as <- <-.
  destruct (materializeLoop_drain fault autoId Hfree queryParams batchSize
              base fuel readPages w w1' pages o' w0 (eq_sym Hsrc) Hrun)
    as (w2 & Hloop2 & _ & Hdst2).
  exists pages, w2. split; [done|]. split; [done|].
  by rewrite Hdst2, Hdst, <-app_assoc.
Qed.

Lemma materialize_twice_duplicates_witness :
  let run :=
    materializePaginationResults reliable letterId sortedById 2 None 10
      threeDocs in
  (∀ n, reliable n = None)
  ∧ run = (Completed, run.2)
  ∧ length (destination run.2) = 2
  ∧ ∃ pages w2,
      doc_data <$> destination run.2
      = (doc_data <$> destination threeDocs) ++ pages
      ∧ materializePaginationResults reliable letterId sortedById 2 None 10
          run.2 = (Completed, w2)
      ∧ doc_data <$> destination w2
        = (doc_data <$> destination threeDocs) ++ pages ++ pages.
Proof.
  intros run.
  assert (run = (Completed, run.2)) as Hrun by (vm_compute; reflexivity).
  split; [reflexivity|]. split; [exact Hrun|].
  split; [vm_compute; reflexivity|].
  exact (materialize_twice_duplicates reliable letterId sortedById 2 None 10
           threeDocs Completed run.2 (λ _, eq_refl) Hrun).
Defined.

(** ** readMaterializedPages: what a traversal does to the store *)

Lemma record_nothing w :
  {| source := source w; destination := destination w;
     journal := journal w ++ [] |} = w.
Proof. rewrite app_nil_r. by destruct w. Qed.

Section replay_any.
Variable fault : nat → option Error.
Variable metadataFilter : option Metadata.
Hypothesis filter_valid : validFilter metadataFilter = true.

Local Abbreviation anext :=
  (readMaterializedPages_next fault metadataFilter).

Lemma drain_pending_any l c w fuel :
  execute (replayQuery metadataFilter (seenAfter c l)) (destination w) = [] →
  ∃ ys o calls,
    drain anext fuel {| lastSeen := c; pending := l |} w
    = (ys, o, {| source := source w; destination := destination w;
                 journal := journal w ++ calls |})
    ∧ ys `prefix_of` (toPage <$> l)
    ∧ length calls ≤ 1
    ∧ Forall (λ c, isReplayRead c = true ∧ unlimited c = true) calls
    ∧ (o = Completed → ys = toPage <$> l).
Proof.
  revert c fuel. induction l as [|d l IH]; intros c fuel Hempty.
  - destruct fuel as [|fuel]; simpl.
    { exists [], OutOfFuel, []. rewrite record_nothing.
      repeat split; try done. simpl. lia. }
    pose proof (readMaterializedPages_next_cases fault metadataFilter
                  {| lastSeen := c; pending := [] |} w) as Hn.
    simpl in Hn. rewrite filter_valid in Hn.
    destruct (fault (length (journal w))) as [e|].
    + rewrite Hn. eexists [], (Aborted e), [_].
      repeat split; try done. by repeat constructor.
    + unfold seenAfter in Hempty. simpl in Hempty, Hn.
      rewrite Hempty in Hn. rewrite Hn. eexists [], Completed, [_].
      repeat split; try done. by repeat constructor.
  - destruct fuel as [|fuel]; simpl.
    { exists [], OutOfFuel, []. rewrite record_nothing.
      repeat split; try done; [apply prefix_nil|simpl; lia]. }
    destruct (IH (cursor (doc_data d)) fuel) as (ys & o & calls & Hrun & Hp
                                                  & Hlen & Hall & Ho).
    { unfold seenAfter in *. rewrite last_cons in Hempty.
      by destruct (last l). }
    rewrite Hrun. exists (toPage d :: ys), o, calls.
    split; [done|]. split; [by apply prefix_cons|].
    split; [done|]. split; [done|].
    intros Hc. rewrite (Ho Hc). done.
Qed.

(** A traversal from the initial state: the calls it makes, and what it
    yields of its first snapshot. *)
Lemma drain_replay_any w fuel :
  ∃ ys o calls,
    drain anext fuel readMaterializedPages w
    = (ys, o, {| source := source w; destination := destination w;
                 journal := journal w ++ calls |})
    ∧ length calls ≤ 2
    ∧ Forall (λ c, isReplayRead c = true ∧ unlimited c = true) calls
    ∧ ys `prefix_of`
        (toPage <$> execute (replayQuery metadataFilter None) (destination w))
    ∧ (o = Completed →
       ys = toPage <$> execute (replayQuery metadataFilter None)
                         (destination w)).
Proof.
  destruct fuel as [|fuel]; simpl.
  { exists [], OutOfFuel, []. rewrite record_nothing.
    repeat split; try done; [simpl; lia|apply prefix_nil]. }
  pose proof (readMaterializedPages_next_cases fault metadataFilter
                readMaterializedPages w) as Hn.
  simpl in Hn. rewrite filter_valid in Hn.
  destruct (fault (length (journal w))) as [e|].
  { rewrite Hn. eexists [], (Aborted e), [_].
    repeat split; try done; [simpl; lia|by repeat constructor|].
    apply prefix_nil. }
  simpl in Hn. rewrite Hn. clear Hn.
  destruct (execute (replayQuery metadataFilter None) (destination w))
    as [|d rest] eqn:Es.
  { eexists [], Completed, [_].
    repeat split; try done; [simpl; lia|by repeat constructor]. }
  set (w1 := record _ w).
  destruct (drain_pending_any rest (cursor (doc_data d)) w1 fuel)
    as (ys & o & calls & Hrun & Hp & Hlen & Hall & Ho).
  { assert (seenAfter (cursor (doc_data d)) rest =
            cursor (doc_data (default d (last rest)))) as ->.
    { unfold seenAfter. by destruct (last rest). }
    apply replay_second_query_empty. unfold w1. simpl. rewrite Es.
    rewrite last_cons. by destruct (last rest). }
  rewrite Hrun.
  exists (toPage d :: ys), o,
    (ReadDestination (replayQuery metadataFilter None) (Ok (d :: rest))
     :: calls).
  split; [by unfold w1; simpl; rewrite <-app_assoc|].
  split; [simpl; lia|]. split; [by constructor|].
  split; [by apply prefix_cons|].
  intros Hc. by rewrite (Ho Hc).
Qed.

(** X9. A traversal by [readMaterializedPages] only reads the
    destination: whatever the store fails and wherever the consumer
    stops, the source and the destination are left as they were, the
    traversal makes at most two calls, both reads of the destination
    without a limit, and what it yields is a prefix of the entries of its
    first snapshot, all of them when it ends normally. *)
Theorem readMaterializedPages_reads_only w fuel :
  ∃ ys o calls,
    drain anext fuel readMaterializedPages w
    = (ys, o, {| source := source w; destination := destination w;
                 journal := journal w ++ calls |})
    ∧ length calls ≤ 2
    ∧ Forall (λ c, isReplayRead c = true ∧ unlimited c = true) calls
    ∧ ys `prefix_of`
        (toPage <$> execute (replayQuery metadataFilter None) (destination w))
    ∧ (o = Completed →
       ys = toPage <$> execute (replayQuery metadataFilter None)
                         (destination w)).
Proof. apply drain_replay_any. Qed.
End replay_any.

Lemma readMaterializedPages_reads_only_witness :
  validFilter (Some {["id" := VStr "a"]}) = true
  ∧ ∃ ys o calls,
      drain (readMaterializedPages_next (failingAt 1 (StoreFailure 9))
               (Some {["id" := VStr "a"]})) 10 readMaterializedPages
        twoEntries
      = (ys, o, {| source := source twoEntries;
                   destination := destination twoEntries;
                   journal := journal twoEntries ++ calls |})
      ∧ length calls ≤ 2.
Proof.
  assert (validFilter (Some {["id" := VStr "a"]}) = true) as Hvalid
    by (vm_compute; reflexivity).
  split; [exact Hvalid|].
  destruct (readMaterializedPages_reads_only (failingAt 1 (StoreFailure 9))
              (Some {["id" := VStr "a"]}) Hvalid twoEntries 10)
    as (ys & o & calls & Hrun & Hlen & _).
  by exists ys, o, calls.
Defined.

(** X10. A metadata filter with a key from which no field path can be
    built (an empty key, a key with an empty segment, or one with a
    reserved character) makes [readMaterializedPages] throw at its first
    resumption: it yields nothing and makes no call to the store. *)
Theorem invalid_filter_key_throws fault (f : Metadata) key v fuel w :
  f !! key = Some v →
  hasReserved key = true ∨ EmptyString ∈ splitDots key →
  drain (readMaterializedPages_next fault (Some f)) (S fuel)
    readMaterializedPages w = ([], Aborted InvalidArgument, w).
Proof.
  intros Hkv Hbad.
  pose proof (readMaterializedPages_next_cases fault (Some f)
                readMaterializedPages w) as Hn.
  simpl in Hn.
  assert (forallb validKey (map_to_list f).*1 = false) as Hinvalid.
  { apply not_true_is_false. rewrite forallb_forall. intros Hall.
    specialize (Hall key). unfold validKey in Hall.
    rewrite andb_true_iff, !negb_true_iff in Hall.
    destruct Hall as [Hr Hs].
    { apply list_elem_of_In, list_elem_of_fmap. exists (key, v).
      split; [done|]. by apply elem_of_map_to_list. }
    destruct Hbad as [Hbad|Hbad]; [congruence|].
    apply bool_decide_eq_false in Hs. apply Hs. by right. }
  rewrite Hinvalid in Hn. simpl. by rewrite Hn.
Qed.

Lemma invalid_filter_key_throws_witness :
  ({["a/b" := VNum 1]} : Metadata) !! "a/b" = Some (VNum 1)
  ∧ (hasReserved "a/b" = true ∨ EmptyString ∈ splitDots "a/b")
  ∧ drain (readMaterializedPages_next reliable (Some {["a/b" := VNum 1]})) 1
      readMaterializedPages twoEntries
    = ([], Aborted InvalidArgument, twoEntries).
Proof.
  assert (hasReserved "a/b" = true ∨ EmptyString ∈ splitDots "a/b") as Hbad
    by (left; reflexivity).
  split; [reflexivity|]. split; [exact Hbad|].
  apply (invalid_filter_key_throws reliable {["a/b" := VNum 1]} "a/b"
           (VNum 1) 0 twoEntries); [reflexivity|exact Hbad].
Defined.

(** ** readMaterializedPages: which entries, and in which order *)

Lemma plainKey_valid key : plainKey key = true → validKey key = true.
Proof.
  unfold plainKey, validKey. rewrite !andb_true_iff, !negb_true_iff.
  intros [[Hr Hs] Hne]. split; [done|].
  apply bool_decide_eq_true in Hs. apply bool_decide_eq_false in Hne.
  apply bool_decide_eq_false. rewrite Hs.
  intros Hin. apply elem_of_cons in Hin as [Hin|Hin]; [done|].
  apply list_elem_of_singleton in Hin. by apply Hne.
Qed.

Lemma plainFilter_valid metadataFilter :
  plainFilter metadataFilter = true → validFilter metadataFilter = true.
Proof.
  destruct metadataFilter as [f|]; [|done]. simpl.
  rewrite !forallb_forall. intros Hall key Hkey.
  by apply plainKey_valid, Hall.
Qed.

Lemma matchesFilters_carries (f : Metadata) c (d : Snapshot PaginationData) :
  plainFilter (Some f) = true →
  matchesFilters (replayQuery (Some f) c) d = true ↔
  carries f (metadata (doc_data d)) = true.
Proof.
  simpl. rewrite forallb_forall. intros Hplain.
  unfold matchesFilters, carries. simpl.
  rewrite forallb_forall, bool_decide_eq_true, map_Forall_to_list,
    Forall_forall.
  split.
  - intros Hm [key v] Hkv. simpl.
    assert (plainKey key = true) as Hk.
    { apply Hplain, list_elem_of_In, list_elem_of_fmap.
      by exists (key, v). }
    specialize (Hm ("metadata" :: splitDots key, v)). simpl in Hm.
    apply entry_metadata_field. eapply bool_decide_eq_true_1, Hm.
    apply list_elem_of_In, list_elem_of_fmap. by exists (key, v).
  - intros Hc p Hp.
    apply list_elem_of_In, list_elem_of_fmap in Hp as ([key v] & -> & Hkv).
    simpl. apply bool_decide_eq_true.
    assert (plainKey key = true) as Hk.
    { apply Hplain, list_elem_of_In, list_elem_of_fmap.
      by exists (key, v). }
    unfold plainKey in Hk. rewrite !andb_true_iff in Hk.
    destruct Hk as [[_ Hs] _]. apply bool_decide_eq_true in Hs.
    rewrite Hs. unfold fieldOf. rewrite decide_False by done.
    apply (Hc (key, v) Hkv).
Qed.

Lemma execute_replay_readable metadataFilter dst :
  plainFilter metadataFilter = true →
  execute (replayQuery metadataFilter None) dst
  ≡ₚ filter (readable metadataFilter) dst.
Proof.
  intros Hplain. rewrite execute_replay. unfold ordered.
  rewrite merge_sort_Permutation, list_filter_filter.
  erewrite (list_filter_iff _ (readable metadataFilter)); [done|].
  intros d.
  rewrite afterBound_replay, andb_True, !Is_true_true.
  assert (hasOrderedFields (replayQuery metadataFilter None) d = true)
    as -> by done.
  unfold readable.
  assert (valueCompare (cursorValue (cursor (doc_data d))) (cursorValue None)
          = Gt ↔ cursor (doc_data d) ≠ None) as ->.
  { by destruct (cursor (doc_data d)). }
  destruct metadataFilter as [f|].
  - rewrite (matchesFilters_carries f None d Hplain). tauto.
  - unfold matchesFilters. simpl. tauto.
Qed.

Lemma execute_replay_length metadataFilter c dst :
  length (execute (replayQuery metadataFilter c) dst) ≤ length dst.
Proof.
  rewrite execute_replay. etrans; [apply length_filter|].
  unfold ordered. rewrite merge_sort_Permutation. apply length_filter.
Qed.

(** X11. With a store that fails no call and a filter of plain keys, a
    complete traversal by [readMaterializedPages] yields every entry of
    the destination that has a non-null cursor and whose metadata
    carries every pair of the filter exactly once, and yields nothing
    else: an entry is left out only for a null cursor or a missing or
    different metadata value. *)
Theorem readMaterializedPages_yields_each_once
    fault metadataFilter w fuel :
  (∀ n, fault n = None) →
  plainFilter metadataFilter = true →
  length (destination w) < fuel →
  ∃ w',
    (drain (readMaterializedPages_next fault metadataFilter) fuel
       readMaterializedPages w).1 = (toPage <$> w', Completed)
    ∧ w' ≡ₚ filter (readable metadataFilter) (destination w).
Proof.
  intros Hfree Hplain Hfuel.
  exists (execute (replayQuery metadataFilter None) (destination w)).
  split; [|by apply execute_replay_readable].
  rewrite (replay_run fault metadataFilter Hfree
             (plainFilter_valid _ Hplain)); [done|].
  pose proof (execute_replay_length metadataFilter None (destination w)).
  simpl. lia.
Qed.

Lemma readMaterializedPages_yields_each_once_witness :
  (∀ n, reliable n = None)
  ∧ plainFilter (Some {["id" := VStr "b"]}) = true
  ∧ length (destination twoEntries) < 5
  ∧ ∃ w',
      (drain (readMaterializedPages_next reliable (Some {["id" := VStr "b"]}))
         5 readMaterializedPages twoEntries).1 = (toPage <$> w', Completed)
      ∧ w' ≡ₚ filter (readable (Some {["id" := VStr "b"]}))
                (destination twoEntries).
Proof.
  assert (plainFilter (Some {["id" := VStr "b"]}) = true) as Hplain
    by (vm_compute; reflexivity).
  assert (length (destination twoEntries) < 5) as Hfuel by (simpl; lia).
  split; [reflexivity|]. split; [exact Hplain|]. split; [exact Hfuel|].
  exact (readMaterializedPages_yields_each_once reliable
           (Some {["id" := VStr "b"]}) twoEntries 5 (λ _, eq_refl)
           Hplain Hfuel).
Defined.

Lemma docLe_replayOrder (a b : Snapshot PaginationData) :
  docLe (normalizedOrders [(["cursor"], Asc)]) a b → replayOrder a b.
Proof.
  unfold docLe, replayOrder. simpl. rewrite !entry_cursor_key.
  destruct (valueCompare _ _); [|done..].
  change (keyOf a keyField) with (VStr (doc_id a)).
  change (keyOf b keyField) with (VStr (doc_id b)). simpl.
  by destruct (String.compare (doc_id a) (doc_id b)).
Qed.

(** X12. Every snapshot [readMaterializedPages] takes of the destination,
    under any filter and after any cursor, lists its entries by
    ascending cursor, and by ascending identifier among entries with the
    same cursor; the entries it yields are therefore in that order,
    whatever the order in which they were written. *)
Theorem readMaterializedPages_in_cursor_order
    fault metadataFilter w fuel :
  validFilter metadataFilter = true →
  ∃ entries,
    (drain (readMaterializedPages_next fault metadataFilter) fuel
       readMaterializedPages w).1.1 = toPage <$> entries
    ∧ StronglySorted replayOrder entries
    ∧ entries ⊆ destination w.
Proof.
  intros Hvalid.
  destruct (drain_replay_any fault metadataFilter Hvalid w fuel)
    as (ys & o & calls & Hrun & _ & _ & [rest Hp] & _).
  set (snapshot := execute (replayQuery metadataFilter None) (destination w))
    in *.
  assert (StronglySorted replayOrder snapshot) as Hsorted.
  { unfold snapshot. rewrite execute_replay.
    apply StronglySorted_filter.
    eapply StronglySorted_weaken; [apply docLe_replayOrder|].
    apply (ordered_sorted (replayQuery metadataFilter None)). }
  exists (take (length ys) snapshot). rewrite Hrun. simpl.
  split; [|split].
  - rewrite fmap_take, Hp. by rewrite take_app_length.
  - rewrite <-(take_drop (length ys) snapshot) in Hsorted.
    by apply StronglySorted_app_1_l in Hsorted.
  - intros d Hd.
    assert (d ∈ snapshot) as Hs.
    { rewrite <-(take_drop (length ys) snapshot). apply elem_of_app.
      by left. }
    unfold snapshot in Hs. by apply execute_elem_of in Hs as [Hs _].
Qed.

Lemma readMaterializedPages_in_cursor_order_witness :
  let stored :=
    materializePaginationResults reliable letterId (sortedByT Asc) 1 None 10
      scrambled in
  validFilter None = true
  ∧ ∃ entries,
      (drain (readMaterializedPages_next reliable None) 10
         readMaterializedPages stored.2).1.1 = toPage <$> entries
      ∧ StronglySorted replayOrder entries
      ∧ entries ⊆ destination stored.2.
Proof.
  intros stored. split; [reflexivity|].
  exact (readMaterializedPages_in_cursor_order reliable None stored.2 10
           eq_refl).
Defined.

(** X13. Saving a page and reading back compose as follows, with a store
    that fails no call and no filter: after [savePageToCollection] with
    metadata, a complete traversal by [readMaterializedPages] yields what
    it yielded before and, once more, the page just saved when its cursor
    is not null; a page saved with a null cursor is stored but never read
    back. *)
Theorem save_then_read_back
    fault autoId data cursor (m : Metadata) w fuel :
  (∀ n, fault n = None) →
  S (length (destination w)) < fuel →
  ∃ w1 before after,
    savePageToCollection fault autoId data cursor (Some m) w = (Ok (), w1)
    ∧ length (destination w1) = S (length (destination w))
    ∧ (drain (readMaterializedPages_next fault None) fuel
         readMaterializedPages w).1 = (before, Completed)
    ∧ (drain (readMaterializedPages_next fault None) fuel
         readMaterializedPages w1).1 = (after, Completed)
    ∧ after ≡ₚ
        match cursor with
        | Some _ =>
            {| page_data := data; page_metadata := Some m |} :: before
        | None => before
        end.
Proof.
  intros Hfree Hfuel.
  unfold savePageToCollection, addDoc. simpl. rewrite Hfree.
  set (entry := {| doc_id := autoId (length (journal w)); doc_data := _ |}).
  set (w1 := {| source := source w; destination := _; journal := _ |}).
  exists w1.
  exists (toPage <$> execute (replayQuery None None) (destination w)).
  exists (toPage <$> execute (replayQuery None None) (destination w1)).
  split; [done|].
  split; [unfold w1; simpl; rewrite length_app; simpl; lia|].
  split; [|split].
  - rewrite (replay_run fault None Hfree eq_refl); [done|].
    pose proof (execute_replay_length None None (destination w)).
    simpl. lia.
  - rewrite (replay_run fault None Hfree eq_refl); [done|].
    pose proof (execute_replay_length None None (destination w1)) as Hl.
    unfold w1 in Hl at 2. simpl in Hl. rewrite length_app in Hl.
    simpl in *. lia.
  - assert (toPage <$> execute (replayQuery None None) (destination w1)
            ≡ₚ (toPage <$> execute (replayQuery None None) (destination w))
               ++ (toPage <$> filter (readable None) [entry])) as ->.
    { rewrite !(execute_replay_readable None) by done.
      unfold w1. simpl. by rewrite filter_app, fmap_app. }
    rewrite filter_cons, filter_nil. unfold entry.
    destruct cursor as [c|].
    + rewrite decide_True by (by split).
      simpl. by rewrite <-Permutation_cons_append.
    + rewrite decide_False by (by intros [? _]).
      simpl. by rewrite app_nil_r.
Qed.

Lemma save_then_read_back_witness :
  (∀ n, reliable n = None)
  ∧ S (length (destination twoEntries)) < 5
  ∧ ∃ w1 before after,
      savePageToCollection reliable letterId [recordOf 3] (Some "p3")
        (Some {["id" := VStr "c"]}) twoEntries = (Ok (), w1)
      ∧ length (destination w1) = 3
      ∧ (drain (readMaterializedPages_next reliable None) 5
           readMaterializedPages twoEntries).1 = (before, Completed)
      ∧ (drain (readMaterializedPages_next reliable None) 5
           readMaterializedPages w1).1 = (after, Completed)
      ∧ after ≡ₚ {| page_data := [recordOf 3];
                    page_metadata := Some {["id" := VStr "c"]} |} :: before.
Proof.
  assert (S (length (destination twoEntries)) < 5) as Hfuel by (simpl; lia).
  split; [reflexivity|]. split; [exact Hfuel|].
  exact (save_then_read_back reliable letterId [recordOf 3] (Some "p3")
           {["id" := VStr "c"]} twoEntries 5 (λ _, eq_refl) Hfuel).
Defined.

Lemma readPages_reads_only_witness :
  let run := drain (readPages_next reliable [] 1 None) 10 readPages
               threeDocs in
  run = (run.1.1, Aborted InvalidArgument, run.2)
  ∧ length run.1.1 = 1
  ∧ ∃ calls,
      journal run.2 = journal threeDocs ++ calls
      ∧ length calls = 1
      ∧ destination run.2 = destination threeDocs
      ∧ Forall (λ c, isSourceRead c = true) calls.
Proof.
  intros run.
  assert (run = (run.1.1, Aborted InvalidArgument, run.2)) as Hrun
    by (vm_compute; reflexivity).
  split; [exact Hrun|]. split; [vm_compute; reflexivity|].
  destruct (readPages_reads_only reliable [] 1 None 10 threeDocs _ _ _ Hrun)
    as (calls & Hj & _ & Hd & Hall & _).
  exists calls. split; [exact Hj|]. split; [|by split].
  apply (f_equal length) in Hj. vm_compute in Hj. exact (eq_sym Hj).
Defined.

Lemma readPages_page_bounds_witness :
  ∃ page,
    page ∈ (drain (readPages_next reliable (sortedByT Desc) 2 None) 3
              readPages threeDocs).1.1
    ∧ 0 < length (data page) ≤ 2.
Proof.
  eexists. split.
  - vm_compute. left.
  - refine (proj1 (readPages_page_bounds reliable (sortedByT Desc) 2 None
                     3 threeDocs _ _)).
    vm_compute. left.
Defined.

(** ** A limit among the caller's constraints *)

Lemma applyConstraint_sameButLimit q q' c :
  sameButLimit q q' →
  match applyConstraint q c, applyConstraint q' c with
  | Ok r, Ok r' => sameButLimit r r' ∧ (isLimit c = false → limitTo r = limitTo q)
  | Err e, Err e' => e = e'
  | _, _ => False
  end.
Proof.
  intros (Hf & Ho & Hb). destruct c; simpl.
  - unfold sameButLimit. simpl. by rewrite Hf.
  - rewrite <-Hb. destruct (bound q); [done|].
    unfold sameButLimit. simpl. by rewrite Ho.
  - done.
  - rewrite <-Ho. destruct (validBound _ _); [|done]. done.
Qed.

Lemma query_limit_last q q' cs n :
  sameButLimit q q' →
  query q (cs ++ [Limit n])
  = query q' (filter (λ c, isLimit c = false) cs ++ [Limit n]).
Proof.
  revert q q'. induction cs as [|c cs IH]; intros q q' Hsame.
  - simpl. destruct Hsame as (Hf & Ho & Hb). by rewrite Hf, Ho, Hb.
  - rewrite filter_cons. simpl.
    pose proof (applyConstraint_sameButLimit q q' c Hsame) as Hc.
    destruct (decide (isLimit c = false)) as [Hno|Hyes].
    + simpl. destruct (applyConstraint q c) as [r|e],
        (applyConstraint q' c) as [r'|e']; try done.
      * destruct Hc as [Hc _]. by apply IH.
      * by subst.
    + destruct c; try done. simpl. apply IH.
      destruct Hsame as (Hf & Ho & Hb). by split.
Qed.

(** X14. A limit among the constraints the caller passes to [readPages]
    or to [materializePaginationResults] has no effect: the limit of
    [batchSize] is applied after it and replaces it, so the generator
    behaves at every resumption as if the caller's limit were not
    there. *)
Theorem caller_limit_is_replaced fault queryParams batchSize base st w :
  readPages_next fault queryParams batchSize base st w
  = readPages_next fault (filter (λ c, isLimit c = false) queryParams)
      batchSize base st w.
Proof.
  unfold readPages_next.
  assert (readPages_query queryParams batchSize (lastCursor st)
          = readPages_query (filter (λ c, isLimit c = false) queryParams)
              batchSize (lastCursor st)) as ->; [|done].
  unfold readPages_query. destruct batchSize as [|n|n]; try done. simpl.
  by rewrite (query_limit_last collectionQuery collectionQuery queryParams n).
Qed.

(** ** The cost of a materialization *)

Lemma Sequential_completed_length
    queryParams batchSize base docs st calls q :
  Sequential queryParams batchSize base docs st calls →
  last calls = Some (ReadSource q (Ok [])) →
  length calls = 2 * length (written calls) + 1
  ∧ length (filter (λ c, isWrite c = true) calls) = length (written calls).
Proof.
  induction 1 as [st|st q' Hq Hex|st q' e Hq|st q' e Hq Hne
                  |st q' i rest Hq Hne Hs IH];
    simpl; try done.
  rewrite !last_cons. destruct (last rest) as [c|] eqn:El; [|done].
  intros Hl. destruct (IH Hl) as [IH1 IH2].
  rewrite IH1, IH2. lia.
Qed.

(** X15. In ascending order of document identifier (equality filters and
    one ascending [orderBy] on the identifier) and with a store that
    fails no call, materializing a result set of N records in batches of
    B makes
    exactly 2 * ceil(N / B) + 1 calls to the store: one read per page,
    one write per page, and the last read that comes back empty. *)
Theorem materialization_cost fault autoId queryParams size base w fuel :
  (∀ n, fault n = None) →
  byIdentifier queryParams = true →
  length (resultSet queryParams w) < fuel →
  let pages :=
    (length (resultSet queryParams w) + Pos.to_nat size - 1)
    / Pos.to_nat size in
  ∃ w' calls,
    materializePaginationResults fault autoId queryParams (Zpos size) base
      fuel w = (Completed, w')
    ∧ journal w' = journal w ++ calls
    ∧ length calls = 2 * pages + 1
    ∧ length (filter (λ c, isWrite c = true) calls) = pages
    ∧ length (filter (λ c, isSourceRead c = true) calls) = pages + 1.
Proof.
  intros Hfree Hfilters Hfuel pages.
  pose proof (Pos2Nat.is_pos size) as Hpos.
  destruct (readPages_batches fault Hfree queryParams size base Hfilters
              fuel w Hfuel) as (w1 & Hrun & _ & _).
  destruct (materializeLoop_drain fault autoId Hfree queryParams (Zpos size)
              base fuel readPages w w _ _ w1 eq_refl Hrun)
    as (w' & Hloop & _ & Hdst).
  destruct (materializeLoop_calls fault autoId queryParams (Zpos size) base
              fuel readPages w Completed w' Hloop)
    as (calls & Hj & Hs & Hd & _ & _ & q & Hl).
  destruct (Sequential_completed_length _ _ _ _ _ calls q Hs Hl)
    as [Hlen Hw].
  assert (length (written calls) = pages) as Hpages.
  { rewrite Hd, fmap_app in Hdst. apply app_inv_head in Hdst.
    apply (f_equal length) in Hdst.
    rewrite length_fmap, pagesOf_length, chunks_length in Hdst by done.
    done. }
  exists w', calls. split; [done|]. split; [done|].
  split; [by rewrite Hlen, Hpages|]. split; [by rewrite Hw|].
  assert (length (filter (λ c, isSourceRead c = true) calls)
          + length (filter (λ c, isWrite c = true) calls) = length calls)
    as Hsum.
  { clear -Hs. induction Hs; rewrite ?filter_cons, ?filter_nil; simpl;
      try done. lia. }
  lia.
Qed.

Lemma materialization_cost_witness :
  (∀ n, reliable n = None)
  ∧ byIdentifier sortedById = true
  ∧ length (resultSet sortedById archive) < 30
  ∧ ∃ w' calls,
      materializePaginationResults reliable letterId sortedById 10 None 30
        archive = (Completed, w')
      ∧ journal w' = journal archive ++ calls
      ∧ length calls = 7.
Proof.
  assert (length (resultSet sortedById archive) < 30) as Hfuel
    by (vm_compute; lia).
  split; [reflexivity|]. split; [reflexivity|]. split; [exact Hfuel|].
  destruct (materialization_cost reliable letterId sortedById 10 None
              archive 30 (λ _, eq_refl) eq_refl Hfuel)
    as (w' & calls & Hmat & Hj & Hlen & _).
  exists w', calls. split; [exact Hmat|]. split; [exact Hj|].
  rewrite Hlen. vm_compute. reflexivity.
Defined.

(** ** Metadata as the tag of a materialization *)

Lemma execute_replay_filtered (f : Metadata) dst :
  plainFilter (Some f) = true →
  execute (replayQuery (Some f) None) dst
  = execute (replayQuery None None)
      (filter (λ d, carries f (metadata (doc_data d)) = true) dst).
Proof.
  intros Hplain. rewrite !execute_replay.
  assert (ordered (replayQuery (Some f) None) dst
          = ordered (replayQuery None None)
              (filter (λ d, carries f (metadata (doc_data d)) = true) dst))
    as ->.
  { unfold ordered. f_equal.
    rewrite (filter_all _ (filter _ dst)) by (by apply Forall_forall).
    apply list_filter_iff. intros d.
    rewrite andb_True, !Is_true_true.
    rewrite (matchesFilters_carries f None d Hplain).
    assert (hasOrderedFields (replayQuery (Some f) None) d = true)
      as -> by done.
    tauto. }
  apply list_filter_iff. intros d. by rewrite !afterBound_replay.
Qed.

Lemma pageMetadata_carries (m : Metadata) k :
  m !! "pageNumber" = None →
  carries m (Some (pageMetadata (Some m) k)) = true.
Proof.
  intros Hfree. unfold carries. apply bool_decide_eq_true.
  intros key v Hkv. simpl. rewrite lookup_insert_ne; [done|].
  intros <-. congruence.
Qed.

Lemma pagesOf_metadata base k batches page :
  page ∈ pagesOf base k batches →
  ∃ n, metadata page = Some (pageMetadata base n).
Proof.
  revert k. induction batches as [|b bs IH]; intros k Hp; simpl in Hp.
  { by apply elem_of_nil in Hp. }
  apply elem_of_cons in Hp as [->|Hp]; [by eexists|]. by eapply IH.
Qed.

(** X16. Metadata tells materializations apart.  When a query in
    ascending order of document identifier (equality filters and one
    ascending [orderBy] on the identifier) is materialized with base
    metadata of plain keys, none of them [pageNumber], into a destination
    whose
    entries do not carry that metadata, and the store fails no call, then
    reading the destination back with that metadata as filter yields
    exactly the pages of this materialization, in the order [readPages]
    produced them, and none of the other entries. *)
Theorem filter_by_base_metadata
    fault autoId queryParams size (m : Metadata) w fuel :
  (∀ n, fault n = None) →
  byIdentifier queryParams = true →
  plainFilter (Some m) = true →
  m !! "pageNumber" = None →
  Forall (λ d, carries m (metadata (doc_data d)) = false) (destination w) →
  length (resultSet queryParams w) < fuel →
  ∃ pages w1 w2 w3,
    drain (readPages_next fault queryParams (Zpos size) (Some m)) fuel
      readPages w = (pages, Completed, w1)
    ∧ materializePaginationResults fault autoId queryParams (Zpos size)
        (Some m) fuel w = (Completed, w2)
    ∧ drain (readMaterializedPages_next fault (Some m)) fuel
        readMaterializedPages w2 = (replayed <$> pages, Completed, w3).
Proof.
  intros Hfree Hfilters Hplain Hnum Hothers Hfuel.
  pose proof (Pos2Nat.is_pos size) as Hpos.
  destruct (readPages_batches fault Hfree queryParams size (Some m) Hfilters
              fuel w Hfuel) as (w1 & Hrun & _ & _).
  set (pages := pagesOf (Some m) 1
                  (chunks (Pos.to_nat size) (resultSet queryParams w))) in *.
  destruct (materializeLoop_drain fault autoId Hfree queryParams (Zpos size)
              (Some m) fuel readPages w w pages Completed w1 eq_refl Hrun)
    as (w2 & Hloop & _ & Hdst).
  destruct (materializeLoop_calls fault autoId queryParams (Zpos size)
              (Some m) fuel readPages w Completed w2 Hloop)
    as (calls & _ & _ & Hd & _).
  assert (doc_data <$> written calls = pages) as Hnew.
  { rewrite Hd, fmap_app in Hdst. by apply app_inv_head in Hdst. }
  assert (execute (replayQuery (Some m) None) (destination w2)
          = written calls) as Hsnap.
  { rewrite (execute_replay_filtered m _ Hplain), Hd, filter_app.
    rewrite filter_none, filter_all; simpl.
    - apply execute_sorted_destination.
      + apply (StronglySorted_fmap_inv doc_data
                 (λ a b, cursorBefore (cursor a) (cursor b))).
        rewrite Hnew. by apply pages_cursors_increasing.
      + apply (Forall_fmap doc_data (λ p, cursor p ≠ None)).
        rewrite Hnew. by apply pages_cursors_defined.
    - apply (Forall_fmap doc_data (λ p, carries m (metadata p) = true)).
      rewrite Hnew. apply Forall_forall. intros page Hp.
      destruct (pagesOf_metadata _ _ _ _ Hp) as [n ->].
      by apply pageMetadata_carries.
    - eapply Forall_impl; [exact Hothers|]. simpl. intros d Hd'.
      by rewrite Hd'. }
  pose proof (replay_run fault (Some m) Hfree (plainFilter_valid _ Hplain)
                w2 fuel) as Hback.
  simpl in Hback. rewrite Hsnap in Hback.
  exists pages, w1, w2. eexists. split; [done|]. split; [done|].
  rewrite Hback.
  - do 2 f_equal. rewrite <-Hnew, <-list_fmap_compose. done.
  - rewrite <-(length_fmap doc_data), Hnew. unfold pages.
    rewrite pagesOf_length.
    pose proof (chunks_length_le (Pos.to_nat size)
                  (resultSet queryParams w) Hpos). lia.
Qed.

Lemma filter_by_base_metadata_witness :
  (∀ n, reliable n = None)
  ∧ byIdentifier sortedById = true
  ∧ plainFilter (Some {["id" := VStr "c"]}) = true
  ∧ ({["id" := VStr "c"]} : Metadata) !! "pageNumber" = None
  ∧ Forall (λ d, carries {["id" := VStr "c"]} (metadata (doc_data d)) = false)
      (destination reused)
  ∧ length (resultSet sortedById reused) < 10
  ∧ ∃ pages w1 w2 w3,
      drain (readPages_next reliable sortedById 2
               (Some {["id" := VStr "c"]})) 10
        readPages reused = (pages, Completed, w1)
      ∧ length pages = 2
      ∧ materializePaginationResults reliable letterId sortedById 2
          (Some {["id" := VStr "c"]}) 10 reused = (Completed, w2)
      ∧ length (destination w2) = 4
      ∧ drain (readMaterializedPages_next reliable
                 (Some {["id" := VStr "c"]})) 10 readMaterializedPages w2
        = (replayed <$> pages, Completed, w3).
Proof.
  assert (plainFilter (Some {["id" := VStr "c"]}) = true) as Hplain
    by (vm_compute; reflexivity).
  assert (Forall (λ d, carries {["id" := VStr "c"]}
                         (metadata (doc_data d)) = false)
            (destination reused)) as Hothers
    by (repeat constructor).
  assert (length (resultSet sortedById reused) < 10) as Hfuel
    by (vm_compute; lia).
  split; [reflexivity|]. split; [reflexivity|]. split; [exact Hplain|].
  split; [reflexivity|]. split; [exact Hothers|]. split; [exact Hfuel|].
  destruct (filter_by_base_metadata reliable letterId sortedById 2
              {["id" := VStr "c"]} reused 10 (λ _, eq_refl) eq_refl Hplain
              eq_refl Hothers Hfuel)
    as (pages & w1 & w2 & w3 & Hrun & Hmat & Hback).
  exists pages, w1, w2, w3.
  split; [exact Hrun|]. split.
  { apply (f_equal (λ r, length r.1.1)) in Hrun. vm_compute in Hrun.
    exact (eq_sym Hrun). }
  split; [exact Hmat|]. split; [|exact Hback].
  apply (f_equal (λ r, length (destination r.2))) in Hmat.
  vm_compute in Hmat. exact (eq_sym Hmat).
Defined.

Lemma Sequential_written_metadata
    queryParams batchSize base docs st calls e :
  Sequential queryParams batchSize base docs st calls →
  e ∈ written calls →
  ∃ n, metadata (doc_data e) = Some (pageMetadata base n).
Proof.
  intros Hs He. apply list_elem_of_lookup in He as [i Hi].
  destruct (Sequential_written _ _ _ _ _ calls Hs i e Hi)
    as (found & _ & ->).
  by eexists.
Qed.

(** X17. Pages materialized without base metadata carry the page number
    and nothing else, so no filter on another key finds them: after any
    run of [materializePaginationResults] without metadata into an empty
    destination, [readMaterializedPages] with a filter that holds a key
    other than [pageNumber] yields nothing, whatever the store does. *)
Theorem untagged_pages_are_not_found
    fault autoId queryParams batchSize fuel w o w'
    fault' (f : Metadata) key v fuel' :
  destination w = [] →
  materializePaginationResults fault autoId queryParams batchSize None
    fuel w = (o, w') →
  f !! key = Some v →
  key ≠ "pageNumber" →
  (drain (readMaterializedPages_next fault' (Some f)) fuel'
     readMaterializedPages w').1.1 = [].
Proof.
  intros Hempty Hmat Hkv Hkey.
  assert (Forall (λ d, ∃ n, metadata (doc_data d)
                            = Some (pageMetadata None n)) (destination w'))
    as Hmeta.
  { unfold materializePaginationResults in Hmat.
    destruct (materializeLoop_calls fault autoId queryParams batchSize
                None fuel readPages w o w' Hmat)
      as (calls & _ & Hs & Hd & _).
    rewrite Hd, Hempty. simpl. apply Forall_forall. intros d Hd'.
    exact (Sequential_written_metadata _ _ None _ _ calls d Hs Hd'). }
  destruct (validFilter (Some f)) eqn:Hvalid.
  - destruct (drain_replay_any fault' (Some f) Hvalid w' fuel')
      as (ys & o' & calls & Hrun & _ & _ & [rest Hp] & _).
    rewrite Hrun. simpl.
    destruct (execute (replayQuery (Some f) None) (destination w'))
      as [|d snapshot] eqn:Es.
    { by destruct ys. }
    exfalso.
    assert (d ∈ execute (replayQuery (Some f) None) (destination w')) as Hd
      by (rewrite Es; by left).
    pose proof (replay_snapshot_satisfies (Some f) None w' d Hd f key v
                  eq_refl Hkv) as Hsat.
    apply execute_elem_of in Hd as [Hd _].
    eapply Forall_forall in Hmeta as [n Hn]; [|exact Hd].
    rewrite Hn in Hsat. simpl in Hsat.
    by rewrite lookup_singleton_ne in Hsat.
  - destruct fuel' as [|fuel']; [done|]. simpl.
    pose proof (readMaterializedPages_next_cases fault' (Some f)
                  readMaterializedPages w') as Hn.
    simpl in Hn. simpl in Hvalid. rewrite Hvalid in Hn. by rewrite Hn.
Qed.

Lemma untagged_pages_are_not_found_witness :
  let run :=
    materializePaginationResults reliable letterId sortedById 2 None 10
      threeDocs in
  destination threeDocs = []
  ∧ ({["id" := VStr "c"]} : Metadata) !! "id" = Some (VStr "c")
  ∧ "id" ≠ "pageNumber"
  ∧ run.1 = Completed
  ∧ length (destination run.2) = 2
  ∧ (drain (readMaterializedPages_next reliable (Some {["id" := VStr "c"]}))
       10 readMaterializedPages run.2).1.1 = [].
Proof.
  intros run.
  assert (materializePaginationResults reliable letterId sortedById 2 None 10
            threeDocs = (run.1, run.2)) as Hrun
    by (fold run; by destruct run).
  assert ("id" ≠ "pageNumber") as Hkey by discriminate.
  split; [reflexivity|]. split; [reflexivity|]. split; [exact Hkey|].
  split; [vm_compute; reflexivity|]. split; [vm_compute; reflexivity|].
  exact (untagged_pages_are_not_found reliable letterId sortedById 2 10
           threeDocs run.1 run.2 reliable {["id" := VStr "c"]} "id"
           (VStr "c") 10 eq_refl Hrun eq_refl Hkey).
Defined.

(** ** readPages over a query without an orderBy clause *)

Section unordered.
Variable fault : nat → option Error.
Variable autoId : nat → string.
Hypothesis fault_free : ∀ n, fault n = None.
Variables (queryParams : list QueryConstraint) (size : positive).
Variable base : option Metadata.
Hypothesis filters_only : forallb isFilter queryParams = true.

Lemma first_page_unordered w :
  execute {| filters := pairsOf queryParams; explicitOrders := [];
             limitTo := Some size; bound := None |} (sourceDocs w)
  = take (Pos.to_nat size) (resultSet queryParams w).
Proof. unfold resultSet. by rewrite query_filters by done. Qed.

(** X18. Without an [orderBy] clause among its constraints (equality
    filters only), over a result set that is not empty and with a store
    that fails no call, [readPages] yields the first page and then
    throws an invalid-argument error, however many records are left: the
    identifier it passes to [startAfter] has no [orderBy] clause to be
    read against, so the query of the second page cannot be built.  It
    has made one call to the store.  [materializePaginationResults]
    stores that one page and aborts with the same error. *)
Theorem readPages_without_orderBy_stops w fuel :
  resultSet queryParams w ≠ [] →
  let first :=
    pageOf base 1 (take (Pos.to_nat size) (resultSet queryParams w)) in
  ∃ w1 w2,
    drain (readPages_next fault queryParams (Zpos size) base) (S (S fuel))
      readPages w = ([first], Aborted InvalidArgument, w1)
    ∧ length (journal w1) = S (length (journal w))
    ∧ materializePaginationResults fault autoId queryParams (Zpos size) base
        (S (S fuel)) w = (Aborted InvalidArgument, w2)
    ∧ doc_data <$> destination w2 = (doc_data <$> destination w) ++ [first].
Proof.
  intros Hne first.
  assert (∃ w1,
    drain (readPages_next fault queryParams (Zpos size) base) (S (S fuel))
      readPages w = ([first], Aborted InvalidArgument, w1)
    ∧ length (journal w1) = S (length (journal w))) as (w1 & Hrun & Hlen).
  { simpl.
    pose proof (readPages_next_cases fault queryParams (Zpos size) base
                  readPages w) as Hn.
    rewrite readPages_query_unordered, fault_free in Hn by done.
    simpl in Hn. rewrite first_page_unordered in Hn. rewrite Hn. clear Hn.
    unfold first.
    destruct (take (Pos.to_nat size) (resultSet queryParams w))
      as [|d docs] eqn:Et.
    { apply take_nil_inv in Et as [Hz|Hnil]; [|done].
      pose proof (Pos2Nat.is_pos size). lia. }
    destruct (last (d :: docs)) as [c|] eqn:El; [|by apply last_None in El].
    match goal with
    | |- context [readPages_next _ _ _ _ ?s ?v] =>
        pose proof (readPages_next_cases fault queryParams (Zpos size) base
                      s v) as Hn
    end.
    rewrite readPages_query_unordered in Hn by done. simpl in Hn.
    rewrite Hn. eexists. split; [done|]. simpl.
    rewrite length_app. simpl. lia. }
  destruct (materializeLoop_drain fault autoId fault_free queryParams
              (Zpos size) base (S (S fuel)) readPages w w _ _ w1 eq_refl
              Hrun) as (w2 & Hloop & _ & Hdst).
  by exists w1, w2.
Qed.
End unordered.

Lemma readPages_without_orderBy_stops_witness :
  (∀ n, reliable n = None)
  ∧ forallb isFilter [] = true
  ∧ length (resultSet [] threeDocs) = 3
  ∧ resultSet [] threeDocs ≠ []
  ∧ ∃ w1 w2,
      drain (readPages_next reliable [] 2 None) 10 readPages threeDocs
      = ([pageOf None 1 (take 2 (resultSet [] threeDocs))],
         Aborted InvalidArgument, w1)
      ∧ length (journal w1) = 1
      ∧ materializePaginationResults reliable letterId [] 2 None 10 threeDocs
        = (Aborted InvalidArgument, w2)
      ∧ doc_data <$> destination w2
        = [pageOf None 1 (take 2 (resultSet [] threeDocs))].
Proof.
  assert (resultSet [] threeDocs ≠ []) as Hne by (by vm_compute).
  split; [reflexivity|]. split; [reflexivity|].
  split; [vm_compute; reflexivity|]. split; [exact Hne|].
  exact (readPages_without_orderBy_stops reliable letterId (λ _, eq_refl)
           [] 2 None eq_refl threeDocs 8 Hne).
Defined.
